(** * py_nlp_search: query-to-filter normalization, price reconciliation
      and catalog filtering

    A shallow embedding of [main.py].  The pure helpers
    ([sanitize_sort_by], [normalize_categories], [extract_price_constraints])
    are Rocq functions; [apply_filters] runs in a small state monad over a
    store of Python list objects, so that what it does to its argument can be
    stated; the request handler [nlp_search] runs in an error monad that logs
    every network call.

    Conventions of the embedding.
    - A Python [float] is an IEEE 754 binary64 value: Rocq's [spec_float]
      with the comparisons [SFeqb], [SFltb], [SFleb] and the negation [SFopp].
      [float(s)] on a decimal literal is the correctly rounded quotient
      [digits / 10^k].
    - A Python [str] is a [string]; the embedding is exact for ASCII text
      ([lower], [strip] and the classes [\d], [\s] follow Python on the ASCII
      range and leave other bytes alone).
    - A [dict] is a [gmap], a [set] is a [gset], [None] is [None]. *)

From Stdlib Require Import ZArith String Ascii List SpecFloat.
From stdpp Require Import gmap strings list sorting.

Local Open Scope string_scope.
Local Open Scope Z_scope.

(** ** Python floats *)

Module Float.

Abbreviation float := spec_float.

Definition prec : Z := 53.
Definition emax : Z := 1024.

(** [a == b], [a < b], [a <= b]; [a > b] is [ltb b a], [a >= b] is [leb b a]. *)
Definition eqb (a b : float) : bool := SFeqb a b.
Definition ltb (a b : float) : bool := SFltb a b.
Definition leb (a b : float) : bool := SFleb a b.

(** Unary minus. *)
Definition neg (a : float) : float := SFopp a.

(** The float of a Python [int] (round to nearest even). *)
Definition of_Z (n : Z) : float := binary_normalize prec emax n 0 false.

(** The float nearest to [n / 10^k]: what [float] returns on the literal
    whose digits, the point dropped, spell [n] and which has [k] digits
    after the point. *)
Definition of_decimal (n : N) (k : nat) : float :=
  match n with
  | N0 => S754_zero false
  | Npos p =>
      SFdiv prec emax (S754_finite false p 0)
            (S754_finite false (Z.to_pos (10 ^ Z.of_nat k)) 0)
  end.

Definition is_nan (a : float) : bool :=
  match a with S754_nan => true | _ => false end.

(** The exact integer a float denotes, when it is a whole number. *)
Definition to_Z (a : float) : option Z :=
  match a with
  | S754_zero _ => Some 0
  | S754_finite s m e =>
      let v := if s then Zneg m else Zpos m in
      match e with
      | Z0 => Some v
      | Zpos p => Some (v * 2 ^ e)
      | Zneg p => if (Z.land (Zpos m) (2 ^ Zpos p - 1) =? 0)
                  then Some (v / 2 ^ Zpos p) else None
      end
  | _ => None
  end.

End Float.

Import Float.

(** ** Python strings (ASCII) *)

Module Str.

Definition is_upper (c : ascii) : bool :=
  let n := nat_of_ascii c in (65 <=? n)%nat && (n <=? 90)%nat.

Definition is_digit (c : ascii) : bool :=
  let n := nat_of_ascii c in (48 <=? n)%nat && (n <=? 57)%nat.

(** [str.isspace] on one character, which is also the class [\s]:
    tab, line feed, vertical tab, form feed, carriage return, the four
    separators 0x1c to 0x1f, and the space. *)
Definition is_space (c : ascii) : bool :=
  let n := nat_of_ascii c in
  ((9 <=? n)%nat && (n <=? 13)%nat) || ((28 <=? n)%nat && (n <=? 32)%nat).

Definition lower_char (c : ascii) : ascii :=
  if is_upper c then ascii_of_nat (nat_of_ascii c + 32) else c.

(** [s.lower()] *)
Fixpoint lower (s : string) : string :=
  match s with
  | EmptyString => EmptyString
  | String c t => String (lower_char c) (lower t)
  end.

(** [s.lstrip()] *)
Fixpoint lstrip (s : string) : string :=
  match s with
  | EmptyString => EmptyString
  | String c t => if is_space c then lstrip t else s
  end.

(** [s.rstrip()] *)
Fixpoint rstrip (s : string) : string :=
  match s with
  | EmptyString => EmptyString
  | String c t =>
      match rstrip t with
      | EmptyString => if is_space c then EmptyString else String c EmptyString
      | t' => String c t'
      end
  end.

(** [s.strip()] *)
Definition strip (s : string) : string := rstrip (lstrip s).

(** [s.replace(old, new)] for a one-character [old]. *)
Fixpoint replace (old : ascii) (new : string) (s : string) : string :=
  match s with
  | EmptyString => EmptyString
  | String c t =>
      if Ascii.eqb c old then new +:+ replace old new t
      else String c (replace old new t)
  end.

(** [needle in hay] *)
Fixpoint contains (needle hay : string) : bool :=
  String.prefix needle hay
  || match hay with
     | EmptyString => false
     | String _ t => contains needle t
     end.

(** Truth value of a string: [bool(s)]. *)
Definition truthy (s : string) : bool :=
  match s with EmptyString => false | _ => true end.

(** The value of a run of decimal digits, most significant first, on top of
    [acc]; [None] when a character is not a digit. *)
Fixpoint digits_value (s : string) (acc : N) : option N :=
  match s with
  | EmptyString => Some acc
  | String c t =>
      if is_digit c
      then digits_value t (acc * 10 + (N_of_ascii c - 48))%N
      else None
  end.

(** The text before the first ['.'], and the text after it when there is one. *)
Fixpoint split_point (s : string) : string * option string :=
  match s with
  | EmptyString => (EmptyString, None)
  | String c t =>
      if Ascii.eqb c "."
      then (EmptyString, Some t)
      else let '(i, f) := split_point t in (String c i, f)
  end.

(** [float(s)] on a plain decimal literal [digits] or [digits.digits]; [None]
    stands for [ValueError].  Python's [float] accepts other spellings too
    (signs, exponents, blanks, [inf]); the extractor never passes one, see
    [extract_price_constraints_returns]. *)
Definition to_float (s : string) : option float :=
  match split_point s with
  | (EmptyString, _) => None
  | (i, None) => n ← digits_value i 0%N; Some (Float.of_decimal n 0)
  | (_, Some EmptyString) => None
  | (i, Some f) =>
      n ← digits_value (i +:+ f) 0%N;
      Some (Float.of_decimal n (String.length f))
  end.

End Str.

(** ** Regular expressions, as Python's [re] runs them

    The fragment the source's three patterns are written in, matched by
    backtracking: alternatives are tried left to right, [?], [*] and [+] are
    greedy, and [search] returns the first match at the leftmost position
    that has one. *)

Module Re.

Inductive regex : Type :=
| Eps                              (* the empty pattern *)
| Chr (c : ascii)                  (* one literal character *)
| Digit                            (* \d *)
| Space                            (* \s *)
| Cat (r1 r2 : regex)              (* r1 r2 *)
| Alt (r1 r2 : regex)              (* r1|r2 *)
| Opt (r : regex)                  (* r? *)
| Star (r : regex)                 (* r* *)
| Group (i : nat) (r : regex).     (* ( r ), the i-th capturing group *)

(** A literal word. *)
Fixpoint lit (s : string) : regex :=
  match s with
  | EmptyString => Eps
  | String c t => Cat (Chr c) (lit t)
  end.

(** [r+] *)
Definition Plus (r : regex) : regex := Cat r (Star r).

(** [(?:r1|r2|...)] *)
Fixpoint alts (rs : list regex) : regex :=
  match rs with
  | [] => Eps
  | [r] => r
  | r :: rs' => Alt r (alts rs')
  end.

(** [r1 r2 ...] *)
Fixpoint cats (rs : list regex) : regex :=
  match rs with
  | [] => Eps
  | [r] => r
  | r :: rs' => Cat r (cats rs')
  end.

(** The groups of a match object: [m.group(i)] is [groups !! i]. *)
Abbreviation groups := (gmap nat string).

(** The text [s] has lost to reach its suffix [s']. *)
Definition consumed (s s' : string) : string :=
  substring 0 (String.length s - String.length s') s.

(** [exec r s g k] matches [r] at the head of [s] with the groups [g] captured
    so far and hands the rest of the text to [k]; when [k] refuses, the next
    way of matching [r] is tried. *)
Fixpoint exec (r : regex) (s : string) (g : groups)
         (k : string → groups → option groups) {struct r} : option groups :=
  match r with
  | Eps => k s g
  | Chr c =>
      match s with
      | String c' t => if Ascii.eqb c' c then k t g else None
      | EmptyString => None
      end
  | Digit =>
      match s with
      | String c' t => if Str.is_digit c' then k t g else None
      | EmptyString => None
      end
  | Space =>
      match s with
      | String c' t => if Str.is_space c' then k t g else None
      | EmptyString => None
      end
  | Cat r1 r2 => exec r1 s g (λ s1 g1, exec r2 s1 g1 k)
  | Alt r1 r2 =>
      match exec r1 s g k with
      | Some m => Some m
      | None => exec r2 s g k
      end
  | Opt r1 =>
      match exec r1 s g k with
      | Some m => Some m
      | None => k s g
      end
  | Star r1 =>
      (fix loop (fuel : nat) (s : string) (g : groups) {struct fuel} :=
         match fuel with
         | O => k s g
         | S fuel' =>
             match
               exec r1 s g
                    (λ s1 g1,
                       if (String.length s1 <? String.length s)%nat
                       then loop fuel' s1 g1 else None)
             with
             | Some m => Some m
             | None => k s g
             end
         end) (String.length s) s g
  | Group i r1 =>
      exec r1 s g (λ s1 g1, k s1 (<[i := consumed s s1]> g1))
  end.

(** [re.match]: a match at the head of the text. *)
Definition match_ (r : regex) (s : string) : option groups :=
  exec r s ∅ (λ _ g, Some g).

(** [re.search]: the leftmost match. *)
Fixpoint search (r : regex) (s : string) : option groups :=
  match match_ r s with
  | Some m => Some m
  | None =>
      match s with
      | EmptyString => None
      | String _ t => search r t
      end
  end.

End Re.

(** ** Sorting, as [sorted] and [list.sort] do it

    Python sorts stably and compares keys with [<] only.  Insertion from the
    right is such a sort: an element goes in front of the first later element
    whose key is not smaller than its own.  When [<] is a strict weak order on
    the keys present (floats other than NaN, strings) every stable sort
    returns this same list. *)

Section Sorting.
Context {A K : Type} (lt : K → K → bool) (key : A → K).

Fixpoint insert_stable (x : A) (l : list A) : list A :=
  match l with
  | [] => [x]
  | y :: l' =>
      if lt (key y) (key x) then y :: insert_stable x l' else x :: l
  end.

Definition sorted (l : list A) : list A := foldr insert_stable [] l.

End Sorting.

(** ** Pydantic models *)

Record Filters : Type := {
  categories : list string;
  keywords : list string;
  price_min : option float;
  price_max : option float;
  rating_min : option float;      (* 0..5 *)
  sort_by : string
}.

(** [rating] is the FakeStore dictionary [{"rate": float, "count": int}]. *)
Record Product : Type := {
  id : Z;
  title : string;
  price : float;
  description : string;
  category : string;
  image : string;
  rating : option (gmap string float)
}.

Record SearchResponse : Type := {
  filters : Filters;
  count : nat;
  results : list Product
}.

(** ** Helpers *)

Definition CATEGORY_SYNONYMS : gmap string (option string) :=
  list_to_map
    [ ("men", Some "men's clothing");
      ("men's", Some "men's clothing");
      ("women", Some "women's clothing");
      ("women's", Some "women's clothing");
      ("jewelry", Some "jewelery");
      ("jewels", Some "jewelery");
      ("electronics", Some "electronics");
      ("clothes", None);
      ("shoes", None) ].

Definition VALID_CATEGORIES : gset string :=
  {[ "men's clothing"; "women's clothing"; "jewelery"; "electronics" ]}.

Definition ALLOWED_SORT : gset string :=
  {[ "relevance"; "price_asc"; "price_desc"; "rating_desc" ]}.

Definition sanitize_sort_by (value : option string) : string :=
  match value with
  | None => "relevance"
  | Some EmptyString => "relevance"
  | Some value =>
      let v := Str.strip (Str.lower value) in
      if bool_decide (v ∈ ALLOWED_SORT) then v
      else if Str.contains "good review" v || Str.contains "best rated" v
              || Str.contains "high rating" v then "rating_desc"
      else if Str.contains "cheap" v then "price_asc"
      else if Str.contains "expensive" v then "price_desc"
      else "relevance"
  end.

(** [CATEGORY_SYNONYMS.get(lc, lc if lc in VALID_CATEGORIES else None)] for
    [lc = c.lower().strip()]. *)
Definition mapped (c : string) : option string :=
  let lc := Str.strip (Str.lower c) in
  default (if bool_decide (lc ∈ VALID_CATEGORIES) then Some lc else None)
          (CATEGORY_SYNONYMS !! lc).

(** One turn of the loop of [normalize_categories]. *)
Definition normalize_step (out : gset string) (c : string) : gset string :=
  match mapped c with
  | Some m => if Str.truthy m then out ∪ {[ m ]} else out
  | None => out
  end.

Definition normalize_categories (cats : list string) : list string :=
  let out := foldl normalize_step ∅ cats in
  sorted String.ltb (λ s, s) (elements out).

(** ** The store of list objects

    A Python list is an object: [products[:]] and a comprehension build a new
    one, [list.sort] rewrites the one it is called on.  The store holds the
    list objects of a request, a list variable holds an address. *)

Abbreviation loc := nat.
Abbreviation store := (list (list Product)).

Definition ST (A : Type) : Type := store → A * store.

#[export] Instance ST_ret : MRet ST := λ A a h, (a, h).
#[export] Instance ST_bind : MBind ST :=
  λ A B f m h, let '(a, h') := m h in f a h'.

(** The elements of the list at [l]. *)
Definition deref (l : loc) : ST (list Product) :=
  λ h, (default [] (h !! l), h).

(** A new list object. *)
Definition alloc (xs : list Product) : ST loc :=
  λ h, (List.length h, (h ++ [xs])%list).

(** [l[:]] *)
Definition list_copy (l : loc) : ST loc :=
  xs ← deref l; alloc xs.

(** [[p for p in l if keep(p)]] *)
Definition list_comp (keep : Product → bool) (l : loc) : ST loc :=
  xs ← deref l; alloc (List.filter keep xs).

(** [l.sort(key=key)] *)
Definition list_sort (key : Product → float) (l : loc) : ST unit :=
  λ h, (tt, <[l := sorted Float.ltb key (default [] (h !! l))]> h).

(** ** The catalog filter engine *)

(** [(p.rating or {}).get("rate", 0)] *)
Definition rate (p : Product) : float :=
  default (S754_zero false) (default ∅ (rating p) !! "rate").

(** [f"{p.title} {p.description} {p.category}".lower()] *)
Definition haystack (p : Product) : string :=
  Str.lower (title p +:+ " " +:+ description p +:+ " " +:+ category p).

Definition apply_filters (products : loc) (f : Filters) : ST loc :=
  out ← list_copy products;
  (* Price window *)
  out ← match price_min f with
        | Some lo => list_comp (λ p, Float.leb lo (price p)) out
        | None => mret out
        end;
  out ← match price_max f with
        | Some hi => list_comp (λ p, Float.leb (price p) hi) out
        | None => mret out
        end;
  (* rating threshold *)
  out ← match rating_min f with
        | Some r => list_comp (λ p, Float.leb r (rate p)) out
        | None => mret out
        end;
  (* Category filter *)
  out ← match categories f with
        | [] => mret out
        | _ =>
            let cats : gset string := list_to_set (Str.lower <$> categories f) in
            list_comp (λ p, bool_decide (Str.lower (category p) ∈ cats)) out
        end;
  (* Keywords, title, description, category *)
  out ← match keywords f with
        | [] => mret out
        | _ =>
            let kws := Str.lower <$> keywords f in
            list_comp (λ p, forallb (λ k, Str.contains k (haystack p)) kws) out
        end;
  _ ← (if String.eqb (sort_by f) "price_asc" then
         list_sort (λ p, price p) out
       else if String.eqb (sort_by f) "price_desc" then
         list_sort (λ p, Float.neg (price p)) out
       else if String.eqb (sort_by f) "rating_desc" then
         list_sort (λ p, Float.neg (rate p)) out
       else mret tt);
  mret out.

(** ** The price-constraint extractor *)

(** [\d+(?:\.\d+)?] *)
Definition NUMBER : Re.regex :=
  Re.Cat (Re.Plus Re.Digit) (Re.Opt (Re.Cat (Re.Chr ".") (Re.Plus Re.Digit))).

(** [\s*\$?\s*(\d+(?:\.\d+)?)], the amount closing each pattern, captured
    as group [i]. *)
Definition AMOUNT (i : nat) : Re.regex :=
  Re.cats [Re.Star Re.Space; Re.Opt (Re.Chr "$"); Re.Star Re.Space;
           Re.Group i NUMBER].

(** [(?:between|from)\s*\$?\s*(\d+(?:\.\d+)?)\s*(?:and|to|-)\s*\$?\s*(\d+(?:\.\d+)?)] *)
Definition RANGE_RE : Re.regex :=
  Re.cats [Re.alts [Re.lit "between"; Re.lit "from"];
           AMOUNT 1;
           Re.Star Re.Space;
           Re.alts [Re.lit "and"; Re.lit "to"; Re.lit "-"];
           AMOUNT 2].

(** [(?:under|below|less than|max(?:imum)?|<=|<)\s*\$?\s*(\d+(?:\.\d+)?)] *)
Definition UPPER_RE : Re.regex :=
  Re.cats [Re.alts [Re.lit "under"; Re.lit "below"; Re.lit "less than";
                    Re.Cat (Re.lit "max") (Re.Opt (Re.lit "imum"));
                    Re.lit "<="; Re.lit "<"];
           AMOUNT 1].

(** [(?:over|above|more than|min(?:imum)?|at least|>=|>)\s*\$?\s*(\d+(?:\.\d+)?)] *)
Definition LOWER_RE : Re.regex :=
  Re.cats [Re.alts [Re.lit "over"; Re.lit "above"; Re.lit "more than";
                    Re.Cat (Re.lit "min") (Re.Opt (Re.lit "imum"));
                    Re.lit "at least"; Re.lit ">="; Re.lit ">"];
           AMOUNT 1].

(** [float(m.group(i))] *)
Definition group_float (m : Re.groups) (i : nat) : option float :=
  g ← m !! i; Str.to_float g.

(** [None] stands for an exception; [extract_price_constraints_returns]
    shows there is none. *)
Definition extract_price_constraints (q : string)
  : option (option float * option float) :=
  let text := Str.replace "," "" (Str.lower q) in
  (* between $A and $B / $A-$B *)
  match Re.search RANGE_RE text with
  | Some m =>
      a ← group_float m 1;
      b ← group_float m 2;
      let '(lo, hi) := if Float.leb a b then (a, b) else (b, a) in
      Some (Some lo, Some hi)
  | None =>
      (* under/below/less than/max/<= *)
      match Re.search UPPER_RE text with
      | Some m => b ← group_float m 1; Some (None, Some b)
      | None =>
          (* over/above/more than/min/>=/> *)
          match Re.search LOWER_RE text with
          | Some m => a ← group_float m 1; Some (Some a, None)
          | None => Some (None, None)
          end
      end
  end.

(** ** Price hardening

    Lines 255 to 268 of [nlp_search]: the bounds read off the literal query
    replace the model's, a bound of the model equal to the new opposite bound
    is cleared, and an inverted pair is swapped. *)

Definition set_price_min (v : option float) (f : Filters) : Filters :=
  {| categories := categories f; keywords := keywords f;
     price_min := v; price_max := price_max f;
     rating_min := rating_min f; sort_by := sort_by f |}.

Definition set_price_max (v : option float) (f : Filters) : Filters :=
  {| categories := categories f; keywords := keywords f;
     price_min := price_min f; price_max := v;
     rating_min := rating_min f; sort_by := sort_by f |}.

Definition set_categories (v : list string) (f : Filters) : Filters :=
  {| categories := v; keywords := keywords f;
     price_min := price_min f; price_max := price_max f;
     rating_min := rating_min f; sort_by := sort_by f |}.

(** [x == v] for an optional [x] and a float [v]: [None] equals no float. *)
Definition eq_float (x : option float) (v : float) : bool :=
  match x with
  | Some a => Float.eqb a v
  | None => false
  end.

(** Lines 256 to 264: the two overrides. *)
Definition override (pmin pmax : option float) (filters : Filters) : Filters :=
  let filters :=
    match pmin with
    | Some pmin =>
        let filters := set_price_min (Some pmin) filters in
        (* If model set price_max equal to pmin due to confusion, clearing it *)
        if eq_float (price_max filters) pmin
        then set_price_max None filters else filters
    | None => filters
    end in
  match pmax with
  | Some pmax =>
      let filters := set_price_max (Some pmax) filters in
      if eq_float (price_min filters) pmax
      then set_price_min None filters else filters
  | None => filters
  end.

(** The test of line 267. *)
Definition inverted (filters : Filters) : bool :=
  match price_min filters, price_max filters with
  | Some lo, Some hi => Float.ltb hi lo
  | _, _ => false
  end.

(** Lines 267 and 268: handling an inverted range. *)
Definition swap_inverted (filters : Filters) : Filters :=
  if inverted filters
  then set_price_max (price_min filters)
         (set_price_min (price_max filters) filters)
  else filters.

Definition harden (pmin pmax : option float) (filters : Filters) : Filters :=
  swap_inverted (override pmin pmax filters).

(** Lines 255 to 268, for the query [q]. *)
Definition reconcile (q : string) (filters : Filters) : option Filters :=
  '(pmin, pmax) ← extract_price_constraints q;
  Some (harden pmin pmax filters).

(** ** The request handler and its two upstream calls *)

Inductive NetCall : Type :=
| PostGenerate (query : string)    (* POST http://localhost:11434/api/generate *)
| GetProducts.                     (* GET https://fakestoreapi.com/products *)

Record HTTPException : Type := {
  status_code : Z;
  detail : string
}.

(** The JSON object of the model's answer, as the [Filters] constructor accepts
    it: every key may be missing or null. *)
Record ModelJson : Type := {
  json_categories : list string;
  json_keywords : list string;
  json_price_min : option float;
  json_price_max : option float;
  json_rating_min : option float;
  json_sort_by : option string
}.

(** What is outside the program: the completion endpoint, which answers a
    query (wrapped in the fixed prompt) with a status code and a text;
    [json.loads] with its brace-searching fallback, [None] when neither
    yields an object the model accepts; and the catalog, [None] when the
    fetch fails. *)
Record Upstream : Type := {
  ollama : string → Z * string;
  json_loads : string → option ModelJson;
  fakestore : option (list Product)
}.

(** Computations that log their network calls and may raise. *)
Definition Net (A : Type) : Type :=
  list NetCall → (HTTPException + A) * list NetCall.

#[export] Instance Net_ret : MRet Net := λ A a log, (inr a, log).
#[export] Instance Net_bind : MBind Net :=
  λ A B f m log,
    match m log with
    | (inl e, log') => (inl e, log')
    | (inr a, log') => f a log'
    end.

Definition raise {A : Type} (code : Z) (msg : string) : Net A :=
  λ log, (inl {| status_code := code; detail := msg |}, log).

Definition call (c : NetCall) : Net unit :=
  λ log, (inr tt, (log ++ [c])%list).

(** An exception no handler catches: the framework answers 500. *)
Definition crash {A : Type} : Net A := raise 500 "Internal Server Error".

Section Handler.
Context (up : Upstream).

Definition fetch_products : Net (list Product) :=
  _ ← call GetProducts;
  match fakestore up with
  | Some data => mret data
  | None => crash
  end.

Definition call_mistral (query : string) : Net Filters :=
  _ ← call (PostGenerate query);
  let '(status, text) := ollama up query in
  if negb (status =? 200) then raise 502 ("Ollama error: " +:+ text)
  else
    (* Parse JSON from model output *)
    match json_loads up text with
    | None => raise 500 "Model returned non-JSON."
    | Some parsed =>
        (* Validation & normalization *)
        let f := {| categories := json_categories parsed;
                    keywords := json_keywords parsed;
                    price_min := json_price_min parsed;
                    price_max := json_price_max parsed;
                    rating_min := json_rating_min parsed;
                    sort_by := sanitize_sort_by (json_sort_by parsed) |} in
        mret (set_categories (normalize_categories (categories f)) f)
    end.

(** [query] is [req.query]; [None] is a null, which [req.query or ""] reads
    as the empty string. *)
Definition nlp_search (query : option string) : Net SearchResponse :=
  let q := Str.strip (default "" query) in
  if negb (Str.truthy q) then raise 400 "Missing query"
  else
    filters ← call_mistral q;
    (* Hardening price logic based on the literal query *)
    match reconcile q filters with
    | None => crash
    | Some filters =>
        products ← fetch_products;
        let '(out, h) := apply_filters 0%nat filters [products] in
        let results := default [] (h !! out) in
        mret {| filters := filters; count := List.length results;
                results := results |}
    end.

End Handler.

(** ** The fallback of [call_mistral]

    Lines 210 and 214: when [json.loads] refuses the answer, the handler
    searches it for a brace-delimited span and parses that.  The [json_loads]
    of an [Upstream] stands for the two attempts together; the search itself
    is this function. *)

(** The longest prefix of [s] that ends with ["}"]. *)
Fixpoint upto_last_brace (s : string) : option string :=
  match s with
  | EmptyString => None
  | String c t =>
      match upto_last_brace t with
      | Some r => Some (String c r)
      | None => if Ascii.eqb c "}" then Some (String c EmptyString) else None
      end
  end.

(** [re.search(r"\{[\s\S]*\}", text)] and its [group(0)]: at the leftmost
    ["{"] that has a ["}"] after it, the greedy [[\s\S]*] runs to the last
    ["}"] of the text. *)
Fixpoint brace_span (text : string) : option string :=
  match text with
  | EmptyString => None
  | String c t =>
      match (if Ascii.eqb c "{" then String c <$> upto_last_brace t else None)
      with
      | Some m => Some m
      | None => brace_span t
      end
  end.

(** * Vocabulary of the statements *)

(** ** Regular expressions: what a match is

    [matches r w g g']: the pattern [r] matches exactly the word [w], and
    the groups go from [g] to [g']. *)

Module ReSpec.
Import Re.

Inductive matches : regex → string → groups → groups → Prop :=
| matches_eps g : matches Eps "" g g
| matches_chr c g : matches (Chr c) (String c "") g g
| matches_digit c g : Str.is_digit c = true → matches Digit (String c "") g g
| matches_space c g : Str.is_space c = true → matches Space (String c "") g g
| matches_cat r1 r2 w1 w2 g g1 g2 :
    matches r1 w1 g g1 → matches r2 w2 g1 g2 →
    matches (Cat r1 r2) (w1 +:+ w2) g g2
| matches_alt_l r1 r2 w g g' : matches r1 w g g' → matches (Alt r1 r2) w g g'
| matches_alt_r r1 r2 w g g' : matches r2 w g g' → matches (Alt r1 r2) w g g'
| matches_opt_none r g : matches (Opt r) "" g g
| matches_opt_some r w g g' : matches r w g g' → matches (Opt r) w g g'
| matches_star_nil r g : matches (Star r) "" g g
| matches_star_cons r w1 w2 g g1 g2 :
    matches r w1 g g1 → matches (Star r) w2 g1 g2 →
    matches (Star r) (w1 +:+ w2) g g2
| matches_group i r w g g' :
    matches r w g g' → matches (Group i r) w g (<[i := w]> g').

(** A pattern without capturing group. *)
Fixpoint group_free (r : regex) : bool :=
  match r with
  | Eps | Chr _ | Digit | Space => true
  | Cat r1 r2 | Alt r1 r2 => group_free r1 && group_free r2
  | Opt r1 | Star r1 => group_free r1
  | Group _ _ => false
  end.

Fixpoint all_digits (s : string) : bool :=
  match s with
  | EmptyString => true
  | String c t => Str.is_digit c && all_digits t
  end.

End ReSpec.

(** ** Reconciliation *)

(** The extractor found exactly one bound. *)
Definition one_sided (pmin pmax : option float) : bool :=
  match pmin, pmax with
  | Some _, None | None, Some _ => true
  | _, _ => false
  end.

(** [f] with its bounds replaced. *)
Definition with_bounds (f : Filters) (lo hi : option float) : Filters :=
  {| categories := categories f; keywords := keywords f;
     price_min := lo; price_max := hi;
     rating_min := rating_min f; sort_by := sort_by f |}.

(** A filter whose bounds are both set, to numbers, satisfies the ordering. *)
Definition bounds_ordered (f : Filters) : Prop :=
  ∀ lo hi, price_min f = Some lo → price_max f = Some hi →
    Float.is_nan lo = false → Float.is_nan hi = false →
    Float.leb lo hi = true.

(** ** The catalog filter engine *)

(** The five predicates, each idle when its field is absent or empty. *)
Definition in_price_min (f : Filters) (p : Product) : bool :=
  match price_min f with Some lo => Float.leb lo (price p) | None => true end.

Definition in_price_max (f : Filters) (p : Product) : bool :=
  match price_max f with Some hi => Float.leb (price p) hi | None => true end.

Definition in_rating (f : Filters) (p : Product) : bool :=
  match rating_min f with Some r => Float.leb r (rate p) | None => true end.

Definition in_categories (f : Filters) (p : Product) : bool :=
  match categories f with
  | [] => true
  | _ => bool_decide (Str.lower (category p)
                        ∈ (list_to_set (Str.lower <$> categories f) : gset string))
  end.

Definition has_keywords (f : Filters) (p : Product) : bool :=
  match keywords f with
  | [] => true
  | _ => forallb (λ k, Str.contains k (haystack p)) (Str.lower <$> keywords f)
  end.

Definition passes (f : Filters) (p : Product) : bool :=
  in_price_min f p && in_price_max f p && in_rating f p
  && in_categories f p && has_keywords f p.

(** The conjunction of the active predicates, spelled out. *)
Definition satisfies (f : Filters) (p : Product) : Prop :=
  (∀ lo, price_min f = Some lo → Float.leb lo (price p) = true) ∧
  (∀ hi, price_max f = Some hi → Float.leb (price p) hi = true) ∧
  (∀ r, rating_min f = Some r → Float.leb r (rate p) = true) ∧
  (categories f ≠ [] →
     ∃ c, c ∈ categories f ∧ Str.lower c = Str.lower (category p)) ∧
  (∀ k, k ∈ keywords f →
     Str.contains (Str.lower k)
       (Str.lower (title p +:+ " " +:+ description p +:+ " " +:+ category p))
     = true).

(** The sort of lines 119 to 124 on the elements of a list. *)
Definition ordered (f : Filters) (l : list Product) : list Product :=
  if String.eqb (sort_by f) "price_asc" then sorted Float.ltb (λ p, price p) l
  else if String.eqb (sort_by f) "price_desc" then
    sorted Float.ltb (λ p, Float.neg (price p)) l
  else if String.eqb (sort_by f) "rating_desc" then
    sorted Float.ltb (λ p, Float.neg (rate p)) l
  else l.

(** The products of a list whose price, or rate, equals [k]. *)
Definition priced (k : float) (l : list Product) : list Product :=
  List.filter (λ p, Float.eqb (price p) k) l.

Definition rated (k : float) (l : list Product) : list Product :=
  List.filter (λ p, Float.eqb (rate p) k) l.

(** A run [r] of a store computation started in [h0] has only added list
    objects to [h0], and the list it returns is a new one, holding [xs]. *)
Definition holds (h0 : store) (xs : list Product) (r : loc * store) : Prop :=
  ∃ ext, r.2 = (h0 ++ ext)%list ∧ (List.length h0 ≤ r.1)%nat
         ∧ r.2 !! r.1 = Some xs.

(** [ascending lt key]: the next element's key is not smaller. *)
Definition ascending {A K : Type} (lt : K → K → bool) (key : A → K)
  (a b : A) : Prop := lt (key b) (key a) = false.

(** ** Sample data *)

(** The filter with every field at its default. *)
Definition no_filter : Filters :=
  {| categories := []; keywords := []; price_min := None; price_max := None;
     rating_min := None; sort_by := "relevance" |}.

Definition set_sort_by (v : string) (f : Filters) : Filters :=
  {| categories := categories f; keywords := keywords f;
     price_min := price_min f; price_max := price_max f;
     rating_min := rating_min f; sort_by := v |}.

Definition item (i : Z) (name cat : string) (cost : float)
  (stars : option float) : Product :=
  {| id := i; title := name; price := cost; description := "";
     category := cat; image := "";
     rating := (λ r, {[ "rate" := r; "count" := Float.of_Z 10 ]}) <$> stars |}.

Definition sample_catalog : list Product :=
  [ item 1 "Backpack" "men's clothing" (Float.of_Z 110) (Some (Float.of_Z 4));
    item 2 "Ring" "jewelery" (Float.of_Z 10) None;
    item 3 "SSD" "electronics" (Float.of_Z 110) (Some (Float.of_Z 5));
    item 4 "Cable" "electronics" (Float.of_Z 10) (Some (Float.of_Z 3)) ].

(** An upstream whose model answers with [rating_min = 7] and whose catalog
    is [sample_catalog]. *)
Definition upstream_rating_7 : Upstream :=
  {| ollama := λ _, (200, "{rating_min: 7}");
     json_loads := λ _,
       Some {| json_categories := []; json_keywords := [];
               json_price_min := None; json_price_max := None;
               json_rating_min := Some (Float.of_Z 7);
               json_sort_by := Some "relevance" |};
     fakestore := Some sample_catalog |}.

(** ** Further vocabulary *)

(** A float that is plus zero, positive or plus infinity. *)
Definition nonnegative (x : float) : bool :=
  match x with
  | S754_zero false | S754_finite false _ _ | S754_infinity false => true
  | _ => false
  end.


(** The character [c] occurs in [s]. *)
Fixpoint has_char (c : ascii) (s : string) : bool :=
  match s with
  | EmptyString => false
  | String c' t => Ascii.eqb c' c || has_char c t
  end.

(** The filter [call_mistral] builds from the model's JSON. *)
Definition filters_of_json (parsed : ModelJson) : Filters :=
  {| categories := normalize_categories (json_categories parsed);
     keywords := json_keywords parsed;
     price_min := json_price_min parsed;
     price_max := json_price_max parsed;
     rating_min := json_rating_min parsed;
     sort_by := sanitize_sort_by (json_sort_by parsed) |}.

(** The response [nlp_search] builds from a reconciled filter and a catalog. *)
Definition response_of (f : Filters) (ps : list Product) : SearchResponse :=
  let res := ordered f (List.filter (passes f) ps) in
  {| filters := f; count := List.length res; results := res |}.

(** Upstreams that fail, each at one stage. *)
Definition upstream_down : Upstream :=
  {| ollama := λ _, (503, "model not loaded");
     json_loads := json_loads upstream_rating_7;
     fakestore := fakestore upstream_rating_7 |}.

Definition upstream_babbling : Upstream :=
  {| ollama := λ _, (200, "Sure, here are your filters");
     json_loads := λ _, None;
     fakestore := fakestore upstream_rating_7 |}.

Definition upstream_no_catalog : Upstream :=
  {| ollama := ollama upstream_rating_7;
     json_loads := json_loads upstream_rating_7;
     fakestore := None |}.

(** * Facts about the embedding *)

(** ** Float comparisons *)
Section FloatFacts.
Implicit Types a b x y k : float.

Lemma SFcompare_antisym x y : SFcompare y x = CompOpp <$> SFcompare x y.
Proof.
  destruct x as [[]|[]| |[] m1 e1], y as [[]|[]| |[] m2 e2]; simpl; try reflexivity.
  all: rewrite (Z.compare_antisym e1 e2);
    destruct (e1 ?= e2)%Z; simpl; try reflexivity;
    fold (Pos.compare m1 m2); fold (Pos.compare m2 m1);
    rewrite (Pos.compare_antisym m1 m2); destruct (m1 ?= m2)%positive; reflexivity.
Qed.

Lemma SFcompare_refl x : is_nan x = false → SFcompare x x = Some Eq.
Proof.
  destruct x as [[]|[]| |[] m e]; simpl; try done; intros _;
    rewrite Z.compare_refl; fold (Pos.compare m m); by rewrite Pos.compare_refl.
Qed.

Lemma SFcompare_eq_r x k y : SFcompare x k = Some Eq → SFcompare y x = SFcompare y k.
Proof.
  destruct x as [[]|[]| |[] m1 e1], k as [[]|[]| |[] m2 e2]; simpl; try done.
  all: destruct (e1 ?= e2)%Z eqn:He; try done;
    fold (Pos.compare m1 m2); destruct (m1 ?= m2)%positive eqn:Hm; try done;
    apply Z.compare_eq in He; apply Pos.compare_eq in Hm; by subst.
Qed.

Lemma SFcompare_neg a b : SFcompare (neg a) (neg b) = SFcompare b a.
Proof.
  rewrite (SFcompare_antisym a b).
  destruct a as [[]|[]| |[] m1 e1], b as [[]|[]| |[] m2 e2]; simpl; try reflexivity.
  all: destruct (e1 ?= e2)%Z; simpl; try reflexivity;
     destruct (Pos.compare_cont Eq m1 m2); reflexivity.
Qed.

Lemma SFcompare_None a b : SFcompare a b = None → is_nan a = true ∨ is_nan b = true.
Proof.
  destruct a as [[]|[]| |[] m1 e1], b as [[]|[]| |[] m2 e2]; simpl; auto; discriminate.
Qed.

Lemma float_ltb_asym a b : ltb a b = true → ltb b a = false.
Proof.
  unfold ltb, SFltb. rewrite (SFcompare_antisym a b).
  by destruct (SFcompare a b) as [[]|].
Qed.

Lemma float_ltb_not_nan a b : ltb a b = true → is_nan a = false ∧ is_nan b = false.
Proof. by destruct a as [[]|[]| |[] ? ?], b as [[]|[]| |[] ? ?]. Qed.

Lemma float_eqb_refl a : is_nan a = false → eqb a a = true.
Proof. intros H. unfold eqb, SFeqb. by rewrite SFcompare_refl. Qed.

Lemma float_leb_not_ltb a b : leb a b = true → ltb b a = false.
Proof.
  unfold leb, ltb, SFleb, SFltb. rewrite (SFcompare_antisym a b).
  by destruct (SFcompare a b) as [[]|].
Qed.

Lemma float_not_ltb_leb a b :
  is_nan a = false → is_nan b = false → ltb b a = false → leb a b = true.
Proof.
  unfold leb, ltb, SFleb, SFltb. rewrite (SFcompare_antisym a b).
  destruct (SFcompare a b) as [[]|] eqn:E; try done.
  apply SFcompare_None in E as [E|E]; congruence.
Qed.

Lemma float_ltb_neg a b : ltb (neg a) (neg b) = ltb b a.
Proof. unfold ltb, SFltb. by rewrite SFcompare_neg. Qed.

Lemma float_eqb_ltb_r x k y : eqb x k = true → ltb y x = ltb y k.
Proof.
  unfold eqb, SFeqb, ltb, SFltb. intros H.
  destruct (SFcompare x k) as [[]|] eqn:E; try done.
  by rewrite (SFcompare_eq_r _ _ _ E).
Qed.

Lemma float_ltb_eqb_false y x : ltb y x = true → eqb y x = false.
Proof. unfold eqb, SFeqb, ltb, SFltb. by destruct (SFcompare y x) as [[]|]. Qed.

End FloatFacts.

(** ** The matcher finds only matches *)

Section ReFacts.
Import Re ReSpec.
Lemma append_cons c (a b : string) : String c a +:+ b = String c (a +:+ b).
Proof. reflexivity. Qed.

Lemma append_nil_l (a : string) : "" +:+ a = a.
Proof. reflexivity. Qed.

Lemma append_assoc (a b c : string) : (a +:+ b) +:+ c = a +:+ (b +:+ c).
Proof. induction a; rewrite ?append_nil_l, ?append_cons; congruence. Qed.

Lemma length_append (a b : string) :
  String.length (a +:+ b) = (String.length a + String.length b)%nat.
Proof. induction a; rewrite ?append_nil_l, ?append_cons; simpl; congruence. Qed.

Lemma consumed_append (w s : string) : consumed (w +:+ s) s = w.
Proof.
  unfold consumed. rewrite length_append.
  replace (String.length w + String.length s - String.length s)%nat
    with (String.length w) by lia.
  induction w as [|c w IH]; rewrite ?append_nil_l, ?append_cons; simpl.
  - by destruct s.
  - by rewrite IH.
Qed.

Lemma exec_sound r : ∀ s g k res,
  exec r s g k = Some res →
  ∃ w s' g', s = w +:+ s' ∧ matches r w g g' ∧ k s' g' = Some res.
Proof.
  induction r as [|c| | |r1 IH1 r2 IH2|r1 IH1 r2 IH2|r1 IH1|r1 IH1|i r1 IH1];
    intros s g k res H; simpl in H.
  - exists "", s, g. eauto using matches.
  - destruct s as [|c' t]; [done|]. destruct (Ascii.eqb_spec c' c); [subst|done].
    exists (String c ""), t, g. eauto using matches.
  - destruct s as [|c' t]; [done|]. destruct (Str.is_digit c') eqn:E; [|done].
    exists (String c' ""), t, g. eauto using matches.
  - destruct s as [|c' t]; [done|]. destruct (Str.is_space c') eqn:E; [|done].
    exists (String c' ""), t, g. eauto using matches.
  - apply IH1 in H as (w1 & s1 & g1 & -> & M1 & H).
    apply IH2 in H as (w2 & s2 & g2 & -> & M2 & H).
    exists (w1 +:+ w2), s2, g2. rewrite append_assoc. eauto using matches.
  - destruct (exec r1 s g k) eqn:E1.
    + injection H as ->. apply IH1 in E1 as (w & s' & g' & -> & M & H).
      eauto 8 using matches.
    + apply IH2 in H as (w & s' & g' & -> & M & H). eauto 8 using matches.
  - destruct (exec r1 s g k) eqn:E1.
    + injection H as ->. apply IH1 in E1 as (w & s' & g' & -> & M & H).
      eauto 8 using matches.
    + exists "", s, g. eauto using matches.
  - revert H. generalize (String.length s) at 1. intros fuel.
    revert s g. induction fuel as [|fuel IHf]; intros s g H.
    + exists "", s, g. eauto using matches.
    + match type of H with
      | match ?e with _ => _ end = _ => destruct e eqn:E1
      end.
      * injection H as ->.
        apply IH1 in E1 as (w1 & s1 & g1 & -> & M1 & H).
        destruct (_ <? _)%nat; [|done].
        apply IHf in H as (w2 & s2 & g2 & -> & M2 & H).
        exists (w1 +:+ w2), s2, g2. rewrite append_assoc. eauto using matches.
      * exists "", s, g. eauto using matches.
  - apply IH1 in H as (w & s' & g' & -> & M & H).
    rewrite consumed_append in H. eauto 8 using matches.
Qed.

Lemma search_sound r s m :
  search r s = Some m → ∃ w, matches r w ∅ m.
Proof.
  induction s as [|c t IH]; simpl; unfold match_.
  - destruct (exec r "" ∅ _) eqn:E; [|done]. intros [= ->].
    apply exec_sound in E as (w & s' & g' & _ & M & [= ->]). eauto.
  - destruct (exec r (String c t) ∅ _) eqn:E.
    + intros [= ->].
      apply exec_sound in E as (w & s' & g' & _ & M & [= ->]). eauto.
    + apply IH.
Qed.

Lemma matches_group_free r w g g' :
  matches r w g g' → group_free r = true → g' = g.
Proof.
  induction 1; simpl; intros F; try reflexivity;
    try (apply andb_prop in F as [F1 F2]); try done; auto.
  - rewrite IHmatches2, IHmatches1; auto.
  - rewrite IHmatches2, IHmatches1; auto.
Qed.

Lemma matches_cat_inv r1 r2 w g g' :
  matches (Cat r1 r2) w g g' →
  ∃ w1 w2 g1, w = w1 +:+ w2 ∧ matches r1 w1 g g1 ∧ matches r2 w2 g1 g'.
Proof. inversion 1; subst; eauto 8. Qed.

Lemma matches_group_inv i r w g g' :
  matches (Group i r) w g g' → ∃ g1, g' = <[i := w]> g1 ∧ matches r w g g1.
Proof. inversion 1; subst; eauto. Qed.

Lemma matches_digit_inv w g g' :
  matches Digit w g g' → ∃ c, w = String c "" ∧ Str.is_digit c = true.
Proof. inversion 1; subst; eauto. Qed.

Lemma matches_star_digit w g g' :
  matches (Star Digit) w g g' → all_digits w = true.
Proof.
  remember (Star Digit) as r eqn:Hr. induction 1; try discriminate; [done|].
  injection Hr as ->. apply matches_digit_inv in H as (c & -> & Hc).
  rewrite append_cons, append_nil_l. simpl. rewrite Hc. auto.
Qed.

Lemma matches_plus_digit w g g' :
  matches (Plus Digit) w g g' → ∃ c t, w = String c t ∧ all_digits w = true.
Proof.
  intros (w1 & w2 & g1 & -> & M1 & M2)%matches_cat_inv.
  apply matches_digit_inv in M1 as (c & -> & Hc). apply matches_star_digit in M2.
  exists c, w2. split; [done|]. rewrite append_cons, append_nil_l. simpl.
  by rewrite Hc.
Qed.

Lemma all_digits_app (a b : string) :
  all_digits a = true → all_digits b = true → all_digits (a +:+ b) = true.
Proof.
  induction a as [|c a IH]; rewrite ?append_nil_l, ?append_cons; simpl; [done|].
  intros [-> ?]%andb_prop ?. simpl. auto.
Qed.

Lemma digits_value_is_Some (s : string) : ∀ acc,
  all_digits s = true → is_Some (Str.digits_value s acc).
Proof.
  induction s as [|c s IH]; simpl; intros acc H; [eauto|].
  apply andb_prop in H as [-> H]. auto.
Qed.

Lemma is_digit_not_point c : Str.is_digit c = true → Ascii.eqb c "." = false.
Proof.
  intros H. destruct (Ascii.eqb_spec c "."); [subst; discriminate|done].
Qed.

Lemma split_point_digits (i : string) :
  all_digits i = true → Str.split_point i = (i, None).
Proof.
  induction i as [|c i IH]; simpl; [done|].
  intros [Hc ?]%andb_prop. rewrite (is_digit_not_point _ Hc), IH; auto.
Qed.

Lemma split_point_digits_point (i f : string) :
  all_digits i = true → Str.split_point (i +:+ String "." f) = (i, Some f).
Proof.
  induction i as [|c i IH]; rewrite ?append_nil_l, ?append_cons; simpl; [done|].
  intros [Hc ?]%andb_prop. rewrite (is_digit_not_point _ Hc), IH; auto.
Qed.

Lemma append_nil_r (a : string) : a +:+ "" = a.
Proof. induction a; rewrite ?append_nil_l, ?append_cons; congruence. Qed.

Lemma matches_NUMBER w g g' :
  matches NUMBER w g g' → g' = g ∧ is_Some (Str.to_float w).
Proof.
  intros M. split; [by apply (matches_group_free _ _ _ _ M)|].
  apply matches_cat_inv in M as (w1 & w2 & g1 & -> & M1 & M2).
  apply matches_plus_digit in M1 as (c & t & -> & D1).
  unfold Str.to_float.
  inversion M2 as [| | | | | | |? ?|? ? ? ? M3| | |]; subst.
  - rewrite append_nil_r, split_point_digits by done.
    destruct (digits_value_is_Some (String c t) 0%N D1) as [n ->]. simpl. eauto.
  - apply matches_cat_inv in M3 as (p & w3 & g3 & -> & Mp & M3).
    inversion Mp; subst.
    apply matches_plus_digit in M3 as (c' & t' & -> & D2).
    change (String "." "" +:+ String c' t') with (String "." (String c' t')).
    rewrite split_point_digits_point by done.
    destruct (digits_value_is_Some (String c t +:+ String c' t') 0%N) as [n ->];
      [by apply all_digits_app|]. simpl. eauto.
Qed.

Lemma matches_AMOUNT i w g g' :
  matches (AMOUNT i) w g g' →
  ∃ n, g' = <[i := n]> g ∧ is_Some (Str.to_float n).
Proof.
  intros (w1 & ? & g1 & -> & M1 & M)%matches_cat_inv.
  apply matches_cat_inv in M as (w2 & ? & g2 & -> & M2 & M).
  apply matches_cat_inv in M as (w3 & ? & g3 & -> & M3 & M).
  apply matches_group_inv in M as (g4 & -> & M).
  apply matches_NUMBER in M as [-> ?].
  apply matches_group_free in M1, M2, M3; [|done..]. subst. eauto.
Qed.

Lemma group_float_insert i n (g : groups) :
  group_float (<[i := n]> g) i = Str.to_float n.
Proof. unfold group_float. by rewrite lookup_insert_eq. Qed.

Lemma group_float_insert_ne i j n (g : groups) :
  i ≠ j → group_float (<[i := n]> g) j = group_float g j.
Proof. intros. unfold group_float. by rewrite lookup_insert_ne. Qed.

Lemma search_RANGE_RE text m :
  search RANGE_RE text = Some m →
  is_Some (group_float m 1) ∧ is_Some (group_float m 2).
Proof.
  intros [w M]%search_sound. unfold RANGE_RE in M. cbn [cats] in M.
  apply matches_cat_inv in M as (w1 & ? & g1 & -> & M1 & M).
  apply matches_cat_inv in M as (w2 & ? & g2 & -> & M2 & M).
  apply matches_cat_inv in M as (w3 & ? & g3 & -> & M3 & M).
  apply matches_cat_inv in M as (w4 & w5 & g4 & -> & M4 & M5).
  apply matches_group_free in M1, M3, M4; [|done..]. subst.
  apply matches_AMOUNT in M2 as (n1 & -> & F1), M5 as (n2 & -> & F2).
  rewrite group_float_insert_ne, !group_float_insert by done. done.
Qed.

Lemma search_bound_RE head text m :
  group_free head = true →
  search (Cat head (AMOUNT 1)) text = Some m → is_Some (group_float m 1).
Proof.
  intros Hh [w M]%search_sound.
  apply matches_cat_inv in M as (w1 & w2 & g1 & -> & M1 & M2).
  apply matches_group_free in M1; [|done]. subst.
  apply matches_AMOUNT in M2 as (n1 & -> & F1).
  by rewrite group_float_insert.
Qed.

End ReFacts.

(** The extractor raises no exception: each [float] is given a decimal
    literal. *)
Lemma extract_price_constraints_returns q :
  is_Some (extract_price_constraints q).
Proof.
  unfold extract_price_constraints.
  destruct (Re.search RANGE_RE _) as [m|] eqn:E1.
  { apply search_RANGE_RE in E1 as [[a ->] [b ->]]. simpl.
    destruct (Float.leb a b); eauto. }
  destruct (Re.search UPPER_RE _) as [m|] eqn:E2.
  { apply search_bound_RE in E2 as [b ->]; [simpl; eauto|done]. }
  destruct (Re.search LOWER_RE _) as [m|] eqn:E3.
  { apply search_bound_RE in E3 as [b ->]; [simpl; eauto|done]. }
  eauto.
Qed.

(** ** Price hardening *)
Section Harden.
Context (f : Filters).
Implicit Types lo hi : option float.

Lemma with_bounds_eta : f = with_bounds f (price_min f) (price_max f).
Proof. by destruct f. Qed.

Lemma override_lower a lo hi :
  override (Some a) None (with_bounds f lo hi)
  = with_bounds f (Some a) (if eq_float hi a then None else hi).
Proof. unfold override, with_bounds. simpl. by destruct (eq_float hi a). Qed.

Lemma override_upper b lo hi :
  override None (Some b) (with_bounds f lo hi)
  = with_bounds f (if eq_float lo b then None else lo) (Some b).
Proof. unfold override, with_bounds. simpl. by destruct (eq_float lo b). Qed.

Lemma override_range a b lo hi :
  override (Some a) (Some b) (with_bounds f lo hi)
  = with_bounds f (if Float.eqb a b then None else Some a) (Some b).
Proof.
  unfold override, with_bounds. cbn -[Float.eqb].
  destruct (eq_float hi a); cbn -[Float.eqb]; by destruct (Float.eqb a b).
Qed.

Lemma inverted_with_bounds lo hi :
  inverted (with_bounds f lo hi)
  = match lo, hi with Some l, Some h => Float.ltb h l | _, _ => false end.
Proof. reflexivity. Qed.

Lemma swap_inverted_with_bounds lo hi :
  swap_inverted (with_bounds f lo hi)
  = if inverted (with_bounds f lo hi)
    then with_bounds f hi lo else with_bounds f lo hi.
Proof. unfold swap_inverted. by destruct (inverted _). Qed.

Lemma with_bounds_inj lo hi lo' hi' :
  with_bounds f lo hi = with_bounds f lo' hi' → lo = lo' ∧ hi = hi'.
Proof. by intros [= -> ->]. Qed.

Lemma harden_range_idempotent a b lo hi :
  let once := harden (Some a) (Some b) (with_bounds f lo hi) in
  harden (Some a) (Some b) once = once.
Proof.
  unfold harden. rewrite override_range, swap_inverted_with_bounds.
  destruct (inverted _) eqn:E;
    by rewrite override_range, swap_inverted_with_bounds, E.
Qed.

Lemma harden_lower_idempotent_iff a lo hi :
  let once := harden (Some a) None (with_bounds f lo hi) in
  harden (Some a) None once = once
  ↔ inverted (override (Some a) None (with_bounds f lo hi)) = false.
Proof.
  unfold harden.
  rewrite override_lower, swap_inverted_with_bounds, inverted_with_bounds.
  destruct hi as [h|]; cbn [eq_float].
  - destruct (Float.eqb h a) eqn:E1.
    + by rewrite override_lower, swap_inverted_with_bounds.
    + destruct (Float.ltb h a) eqn:E2;
        rewrite override_lower, swap_inverted_with_bounds, inverted_with_bounds;
        cbn [eq_float].
      * rewrite (float_eqb_refl a) by (by apply float_ltb_not_nan in E2 as [_ ?]).
        split; [intros [[=] _]%with_bounds_inj; subst|done].
        apply float_ltb_asym in E2 as E3. congruence.
      * by rewrite E1, E2.
  - by rewrite override_lower, swap_inverted_with_bounds.
Qed.

Lemma harden_upper_idempotent_iff b lo hi :
  let once := harden None (Some b) (with_bounds f lo hi) in
  harden None (Some b) once = once
  ↔ inverted (override None (Some b) (with_bounds f lo hi)) = false.
Proof.
  unfold harden.
  rewrite override_upper, swap_inverted_with_bounds, inverted_with_bounds.
  destruct lo as [l|]; cbn [eq_float].
  - destruct (Float.eqb l b) eqn:E1.
    + by rewrite override_upper, swap_inverted_with_bounds.
    + destruct (Float.ltb b l) eqn:E2;
        rewrite override_upper, swap_inverted_with_bounds, inverted_with_bounds;
        cbn [eq_float].
      * rewrite (float_eqb_refl b) by (by apply float_ltb_not_nan in E2 as [? _]).
        split; [intros [_ [=]]%with_bounds_inj; subst|done].
        apply float_ltb_asym in E2 as E3. congruence.
      * by rewrite E1, E2.
  - by rewrite override_upper, swap_inverted_with_bounds.
Qed.

End Harden.

Lemma swap_inverted_not_inverted f : inverted (swap_inverted f) = false.
Proof.
  rewrite (with_bounds_eta f), swap_inverted_with_bounds.
  generalize (price_min f) (price_max f). intros lo hi.
  destruct (inverted (with_bounds f lo hi)) eqn:E; [|done].
  rewrite inverted_with_bounds in *.
  destruct lo, hi; try done. by apply float_ltb_asym.
Qed.

Lemma harden_idempotent_iff pmin pmax f :
  harden pmin pmax (harden pmin pmax f) = harden pmin pmax f
  ↔ ¬ (one_sided pmin pmax = true ∧ inverted (override pmin pmax f) = true).
Proof.
  rewrite (with_bounds_eta f).
  destruct pmin as [a|], pmax as [b|]; cbn [one_sided].
  - split; [by intros _ []|intros _; apply harden_range_idempotent].
  - rewrite harden_lower_idempotent_iff.
    destruct (inverted _); split; intros H; try done; [by destruct H|by intros []].
  - rewrite harden_upper_idempotent_iff.
    destruct (inverted _); split; intros H; try done; [by destruct H|by intros []].
  - split; [by intros _ []|intros _].
    unfold harden, override. generalize (with_bounds f (price_min f) (price_max f)).
    intros g. unfold swap_inverted at 1. by rewrite swap_inverted_not_inverted.
Qed.

Lemma not_inverted_ordered f : inverted f = false → bounds_ordered f.
Proof.
  unfold inverted, bounds_ordered. intros H lo hi Hlo Hhi ? ?.
  rewrite Hlo, Hhi in H. by apply float_not_ltb_leb.
Qed.

(** ** The store *)

Section StoreFacts.
Implicit Types (h : store) (xs : list Product) (l out : loc).
Lemma ST_bind_eq {A B} (m : ST A) (k : A → ST B) h :
  (m ≫= k) h = let '(a, h') := m h in k a h'.
Proof. reflexivity. Qed.

Lemma alloc_holds h0 ext xs : holds h0 xs (alloc xs (h0 ++ ext)%list).
Proof.
  exists (ext ++ [xs])%list. simpl. split_and!.
  - by rewrite app_assoc.
  - rewrite length_app. lia.
  - by apply list_lookup_middle.
Qed.

Lemma list_copy_holds h l ps : h !! l = Some ps → holds h ps (list_copy l h).
Proof.
  intros H. unfold list_copy, deref. rewrite ST_bind_eq, H. simpl.
  rewrite <- (app_nil_r h) at 2. apply alloc_holds.
Qed.

Lemma list_comp_holds h0 xs keep out h :
  holds h0 xs (out, h) → holds h0 (List.filter keep xs) (list_comp keep out h).
Proof.
  intros (ext & E & ? & H). simpl in *. subst h.
  unfold list_comp, deref. rewrite ST_bind_eq, H. simpl. apply alloc_holds.
Qed.

Lemma list_sort_holds h0 xs key out h :
  holds h0 xs (out, h) →
  holds h0 (sorted Float.ltb key xs) (out, (list_sort key out h).2).
Proof.
  intros (ext & E & Hle & H). simpl in *. subst h.
  unfold list_sort. simpl. rewrite H. simpl.
  exists (<[(out - List.length h0)%nat := sorted Float.ltb key xs]> ext). simpl. split_and!.
  - rewrite insert_app_r_alt by done. done.
  - done.
  - apply list_lookup_insert_eq. by eapply lookup_lt_Some.
Qed.

Lemma filter_true xs : List.filter (λ _ : Product, true) xs = xs.
Proof. induction xs; simpl; congruence. Qed.

Lemma filter_filter (p q : Product → bool) xs :
  List.filter q (List.filter p xs) = List.filter (λ x, p x && q x) xs.
Proof.
  induction xs as [|x xs IH]; simpl; [done|].
  destruct (p x); simpl; [destruct (q x)|]; simpl; congruence.
Qed.

Lemma holds_bind h0 xs ys (m : ST loc) (k : loc → ST loc) h :
  holds h0 xs (m h) →
  (∀ out h', holds h0 xs (out, h') → holds h0 ys (k out h')) →
  holds h0 ys ((m ≫= k) h).
Proof. rewrite ST_bind_eq. destruct (m h) as [out h']. auto. Qed.

Lemma apply_filters_holds h l ps f :
  h !! l = Some ps →
  holds h (ordered f (List.filter (passes f) ps)) (apply_filters l f h).
Proof.
  intros H. unfold apply_filters.
  eapply holds_bind; [by apply list_copy_holds|]. intros out0 h0 H0.
  eapply (holds_bind _ (List.filter (in_price_min f) ps)).
  { unfold in_price_min. destruct (price_min f).
    - by apply list_comp_holds.
    - by rewrite filter_true. }
  clear out0 h0 H0. intros out1 h1 H1.
  eapply (holds_bind _ (List.filter (in_price_max f) _)).
  { unfold in_price_max. destruct (price_max f).
    - by apply list_comp_holds.
    - by rewrite filter_true. }
  clear out1 h1 H1. intros out2 h2 H2.
  eapply (holds_bind _ (List.filter (in_rating f) _)).
  { unfold in_rating. destruct (rating_min f).
    - by apply list_comp_holds.
    - by rewrite filter_true. }
  clear out2 h2 H2. intros out3 h3 H3.
  eapply (holds_bind _ (List.filter (in_categories f) _)).
  { unfold in_categories. destruct (categories f).
    - by rewrite filter_true.
    - by apply list_comp_holds. }
  clear out3 h3 H3. intros out4 h4 H4.
  eapply (holds_bind _ (List.filter (has_keywords f) _)).
  { unfold has_keywords. destruct (keywords f).
    - by rewrite filter_true.
    - by apply list_comp_holds. }
  clear out4 h4 H4. intros out5 h5 H5.
  rewrite !filter_filter in H5.
  rewrite (List.filter_ext _ (passes f)) in H5
    by (intros p; unfold passes; by rewrite !andb_assoc).
  rewrite ST_bind_eq. unfold ordered.
  destruct (String.eqb (sort_by f) "price_asc").
  { apply (list_sort_holds _ _ (λ p, price p)) in H5.
    destruct (list_sort _ out5 h5) as [[] h6]. exact H5. }
  destruct (String.eqb (sort_by f) "price_desc").
  { apply (list_sort_holds _ _ (λ p, Float.neg (price p))) in H5.
    destruct (list_sort _ out5 h5) as [[] h6]. exact H5. }
  destruct (String.eqb (sort_by f) "rating_desc").
  { apply (list_sort_holds _ _ (λ p, Float.neg (rate p))) in H5.
    destruct (list_sort _ out5 h5) as [[] h6]. exact H5. }
  done.
Qed.

End StoreFacts.

(** ** Sorting *)

Section SortFacts.
Context {A K : Type} (lt : K → K → bool) (key : A → K).
Lemma insert_stable_Permutation x l : insert_stable lt key x l ≡ₚ x :: l.
Proof.
  induction l as [|y l IH]; simpl; [done|].
  destruct (lt (key y) (key x)); [|done].
  rewrite IH. apply Permutation_swap.
Qed.

Lemma sorted_Permutation l : sorted lt key l ≡ₚ l.
Proof.
  induction l as [|x l IH]; simpl; [done|].
  by rewrite insert_stable_Permutation, IH.
Qed.

Hypothesis lt_asym : ∀ a b, lt a b = true → lt b a = false.

Lemma insert_stable_Sorted x l :
  Sorted (ascending lt key) l → Sorted (ascending lt key) (insert_stable lt key x l).
Proof.
  induction 1 as [|y l Hl IH Hy]; simpl.
  - repeat constructor.
  - destruct (lt (key y) (key x)) eqn:E.
    + constructor; [done|].
      destruct Hy as [|z l Hz]; simpl.
      * constructor. by apply lt_asym.
      * destruct (lt (key z) (key x)); constructor; [done|by apply lt_asym].
    + constructor; [by constructor|]. by constructor.
Qed.

Lemma sorted_Sorted l : Sorted (ascending lt key) (sorted lt key l).
Proof.
  induction l as [|x l IH]; simpl; [constructor|by apply insert_stable_Sorted].
Qed.

(** Stability: the elements a test [P] singles out keep their order, when
    [P] never holds of both an element and a strictly smaller one. *)
Lemma insert_stable_filter (P : A → bool) x l :
  (∀ y, P x = true → lt (key y) (key x) = true → P y = false) →
  List.filter P (insert_stable lt key x l) = List.filter P (x :: l).
Proof.
  intros HP. induction l as [|y l IH]; simpl; [done|].
  destruct (lt (key y) (key x)) eqn:E; [|done].
  simpl in *. rewrite IH.
  destruct (P x) eqn:Ex; [|done].
  by rewrite (HP y).
Qed.

Lemma sorted_filter (P : A → bool) l :
  (∀ x y, P x = true → lt (key y) (key x) = true → P y = false) →
  List.filter P (sorted lt key l) = List.filter P l.
Proof.
  intros HP. induction l as [|x l IH]; simpl; [done|].
  rewrite insert_stable_filter by eauto. simpl. by rewrite IH.
Qed.

End SortFacts.

Lemma Sorted_Forall_impl {A} (P : A → Prop) (R R' : A → A → Prop) l :
  (∀ a b, P a → P b → R a b → R' a b) → Forall P l → Sorted R l → Sorted R' l.
Proof.
  intros HR HP. induction 1 as [|x l Hl IH Hx]; [constructor|].
  apply Forall_cons in HP as [Px Pl]. constructor; [auto|].
  destruct Hx; constructor. apply Forall_cons in Pl as [? _]. auto.
Qed.

(** Strings *)
Lemma string_ltb_asym (a b : string) : String.ltb a b = true → String.ltb b a = false.
Proof.
  unfold String.ltb. rewrite (String.compare_antisym a b).
  by destruct (String.compare b a).
Qed.

Lemma string_ltb_total (a b : string) :
  String.ltb b a = false → a ≠ b → String.ltb a b = true.
Proof.
  unfold String.ltb. rewrite (String.compare_antisym a b).
  destruct (String.compare b a) eqn:E; try done.
  apply String.compare_eq_iff in E. done.
Qed.

Lemma Sorted_NoDup_strict l :
  Sorted (λ a b : string, String.ltb b a = false) l → NoDup l →
  Sorted (λ a b : string, String.ltb a b = true) l.
Proof.
  induction 1 as [|x l Hl IH Hx]; intros ND; [constructor|].
  apply NoDup_cons in ND as [Hx' ND]. constructor; [auto|].
  destruct Hx; constructor. apply string_ltb_total; [done|].
  intros ->. apply Hx'. by left.
Qed.

(** ** The floats of the examples *)

(** [Float.of_Z] gives the float of the integer: the floats named below
    denote 1, 5, 7, 20, 50 and 100. *)
Example of_Z_denotes :
  Float.to_Z <$> (Float.of_Z <$> [1; 5; 7; 20; 50; 100])
  = Some <$> [1; 5; 7; 20; 50; 100].
Proof. reflexivity. Qed.

(** On a literal, [float] rounds to the nearest binary64: "0.1" is
    7205759403792794 * 2^-56, and "20.50" is 20.5 exactly. *)
Example to_float_rounds :
  Str.to_float "0.1" = Some (S754_finite false 7205759403792794 (-56))
  ∧ Str.to_float "20.50" = Some (S754_finite false 5770237022568448 (-48))
  ∧ Str.to_float "1.2.3" = None.
Proof. vm_compute. split_and!; reflexivity. Qed.

(** * The claims *)

(** ** Filter reconciler *)

(** C1, counterexample.  For the query "over $100" and a model filter whose
    only bound is [price_max = 50], a first reconciliation sets
    [price_min = 100], finds the pair inverted and swaps it to (50, 100); a
    second one overrides [price_min] with 100 again, finds [price_max] equal
    to it and clears it: (100, absent).  Twice is not once. *)
Lemma reconcile_twice_differs :
  let model := set_price_max (Some (Float.of_Z 50)) no_filter in
  let once :=
    set_price_min (Some (Float.of_Z 50))
      (set_price_max (Some (Float.of_Z 100)) no_filter) in
  let twice := set_price_min (Some (Float.of_Z 100)) no_filter in
  reconcile "over $100" model = Some once
  ∧ reconcile "over $100" once = Some twice
  ∧ once ≠ twice.
Proof. vm_compute. split_and!; [reflexivity..|discriminate]. Qed.

(** C1, amended.  For every filter and every query text, reconciliation
    returns, and reconciling its result again with the same text gives the
    same filter exactly when the first pass did not swap a pair built from a
    single extracted bound: it is idempotent whenever the extractor finds no
    bound or a range, and whenever it finds one bound that the model's
    opposite bound does not contradict. *)
Theorem reconcile_idempotent_iff (q : string) (f : Filters) :
  ∃ pmin pmax once twice,
    extract_price_constraints q = Some (pmin, pmax)
    ∧ reconcile q f = Some once
    ∧ reconcile q once = Some twice
    ∧ (twice = once
       ↔ ¬ (one_sided pmin pmax = true
            ∧ inverted (override pmin pmax f) = true)).
Proof.
  destruct (extract_price_constraints_returns q) as [[pmin pmax] E].
  exists pmin, pmax, (harden pmin pmax f),
    (harden pmin pmax (harden pmin pmax f)).
  unfold reconcile. rewrite E. simpl.
  split_and!; try reflexivity. apply harden_idempotent_iff.
Qed.

(** C2, counterexample.  A filter whose [price_min] is NaN and whose
    [price_max] is 5 passes through reconciliation unchanged, the test
    [price_min > price_max] being false; both bounds are set and
    [price_min <= price_max] is false. *)
Lemma reconcile_nan_unordered :
  let model :=
    set_price_min (Some S754_nan)
      (set_price_max (Some (Float.of_Z 5)) no_filter) in
  reconcile "no price info" model = Some model
  ∧ price_min model = Some S754_nan
  ∧ price_max model = Some (Float.of_Z 5)
  ∧ Float.leb S754_nan (Float.of_Z 5) = false.
Proof. vm_compute. split_and!; reflexivity. Qed.

(** C2, amended.  For every filter and every query text, reconciliation
    returns a filter in which, when both bounds are set, [price_min >
    price_max] is false, and [price_min <= price_max] holds as soon as
    neither bound is NaN. *)
Theorem reconcile_bounds_ordered (q : string) (f : Filters) :
  ∃ f', reconcile q f = Some f'
    ∧ ∀ lo hi, price_min f' = Some lo → price_max f' = Some hi →
        Float.ltb hi lo = false
        ∧ (Float.is_nan lo = false → Float.is_nan hi = false →
           Float.leb lo hi = true).
Proof.
  destruct (extract_price_constraints_returns q) as [[pmin pmax] E].
  exists (harden pmin pmax f). unfold reconcile. rewrite E. simpl.
  split; [reflexivity|]. intros lo hi Hlo Hhi.
  pose proof (swap_inverted_not_inverted (override pmin pmax f)) as H.
  fold (harden pmin pmax f) in H. split.
  - unfold inverted in H. by rewrite Hlo, Hhi in H.
  - by apply (not_inverted_ordered _ H).
Qed.

(** ** Price-constraint extractor *)

(** C3.  The extractor on the reference vectors: four of them come out as
    the spec says; "$50-$20" yields no bound, since the range pattern asks
    for "between" or "from" in front of the first amount (with "from" the
    dash form is read, and swapped). *)
Theorem extract_price_constraints_vectors :
  extract_price_constraints "between $20 and $50"
    = Some (Some (Float.of_Z 20), Some (Float.of_Z 50))
  ∧ extract_price_constraints "under $100" = Some (None, Some (Float.of_Z 100))
  ∧ extract_price_constraints "over $100" = Some (Some (Float.of_Z 100), None)
  ∧ extract_price_constraints "no price info" = Some (None, None)
  ∧ extract_price_constraints "$50-$20" = Some (None, None)
  ∧ extract_price_constraints "from $50-$20"
    = Some (Some (Float.of_Z 20), Some (Float.of_Z 50)).
Proof. vm_compute. split_and!; reflexivity. Qed.

(** ** Sort sanitizer *)

Lemma allowed_sort_elem (v : string) :
  v ∈ ALLOWED_SORT ↔
  v = "relevance" ∨ v = "price_asc" ∨ v = "price_desc" ∨ v = "rating_desc".
Proof.
  unfold ALLOWED_SORT. rewrite !elem_of_union, !elem_of_singleton. tauto.
Qed.

(** C4.  On every input, absent or present, [sanitize_sort_by] returns one of
    the four sort keys (it is total: there is no failure to return).  An
    absent or empty input gives "relevance".  Otherwise, with [v] the
    lowercased and trimmed input: an allowed [v] is returned as it is; if
    not, a rating phrase gives "rating_desc"; failing that, "cheap" gives
    "price_asc"; failing that, "expensive" gives "price_desc"; anything else
    gives "relevance". *)
Theorem sanitize_sort_by_spec (value : option string) :
  sanitize_sort_by value ∈ ALLOWED_SORT
  ∧ (value = None ∨ value = Some "" → sanitize_sort_by value = "relevance")
  ∧ ∀ s, value = Some s → s ≠ "" →
      let v := Str.strip (Str.lower s) in
      let rating_phrase :=
        Str.contains "good review" v || Str.contains "best rated" v
        || Str.contains "high rating" v in
      (v ∈ ALLOWED_SORT → sanitize_sort_by value = v)
      ∧ (v ∉ ALLOWED_SORT →
           (rating_phrase = true → sanitize_sort_by value = "rating_desc")
           ∧ (rating_phrase = false → Str.contains "cheap" v = true →
                sanitize_sort_by value = "price_asc")
           ∧ (rating_phrase = false → Str.contains "cheap" v = false →
                Str.contains "expensive" v = true →
                sanitize_sort_by value = "price_desc")
           ∧ (rating_phrase = false → Str.contains "cheap" v = false →
                Str.contains "expensive" v = false →
                sanitize_sort_by value = "relevance")).
Proof.
  split_and!.
  - unfold sanitize_sort_by. destruct value as [[|c s]|].
    1, 3: apply allowed_sort_elem; auto.
    case_bool_decide; [done|].
    repeat case_match; apply allowed_sort_elem; auto.
  - intros [-> | ->]; reflexivity.
  - intros s -> Hs v rating_phrase. destruct s as [|c s]; [done|].
    unfold sanitize_sort_by. fold v. fold rating_phrase.
    split.
    + intros Hv. by rewrite bool_decide_eq_true_2.
    + intros Hv. rewrite bool_decide_eq_false_2 by done.
      split_and!; intros; repeat match goal with H : _ = _ |- _ => rewrite H end;
        reflexivity.
Qed.

(** ** Category normalizer *)

Lemma valid_categories_elem (x : string) :
  x ∈ VALID_CATEGORIES ↔
  x = "men's clothing" ∨ x = "women's clothing" ∨ x = "jewelery"
  ∨ x = "electronics".
Proof.
  unfold VALID_CATEGORIES. rewrite !elem_of_union, !elem_of_singleton. tauto.
Qed.

Lemma synonyms_valid :
  map_Forall (λ _ v, ∀ m : string, v = Some m → m ∈ VALID_CATEGORIES)
    CATEGORY_SYNONYMS.
Proof.
  unfold CATEGORY_SYNONYMS. simpl.
  repeat (apply map_Forall_insert_2;
          [intros m ?; simplify_eq; apply valid_categories_elem; auto 6|]).
  apply map_Forall_empty.
Qed.

Lemma mapped_valid (c x : string) : mapped c = Some x → x ∈ VALID_CATEGORIES.
Proof.
  unfold mapped.
  destruct (CATEGORY_SYNONYMS !! _) as [v|] eqn:E; simpl.
  - intros ->. by eapply (synonyms_valid _ _ E).
  - case_bool_decide; [|done]. by intros [= <-].
Qed.

Lemma valid_truthy (x : string) : x ∈ VALID_CATEGORIES → Str.truthy x = true.
Proof. intros [->|[->|[->| ->]]]%valid_categories_elem; reflexivity. Qed.

Lemma mapped_of_valid (c : string) : c ∈ VALID_CATEGORIES → mapped c = Some c.
Proof.
  intros [->|[->|[->| ->]]]%valid_categories_elem; by vm_compute.
Qed.

Lemma elem_of_normalize_fold (cats : list string) : ∀ (acc : gset string) x,
  x ∈ foldl normalize_step acc cats
  ↔ x ∈ acc ∨ ∃ c, c ∈ cats ∧ mapped c = Some x.
Proof.
  induction cats as [|c cats IH]; intros acc x; simpl.
  - split; [auto|]. intros [?|(c & []%elem_of_nil & _)]. done.
  - rewrite IH. unfold normalize_step at 1.
    destruct (mapped c) as [m|] eqn:E.
    + rewrite (valid_truthy m) by (by eapply mapped_valid).
      rewrite elem_of_union, elem_of_singleton. split.
      * intros [[?| ->]|(c' & ? & ?)]; [by left|right..].
        -- exists c. split; [left|done].
        -- exists c'. split; [by right|done].
      * intros [?|(c' & [->|?]%elem_of_cons & H')]; [by left; left| |].
        -- left; right. congruence.
        -- right. eauto.
    + split.
      * intros [?|(c' & ? & ?)]; [by left|right].
        exists c'. split; [by right|done].
      * intros [?|(c' & [->|?]%elem_of_cons & H')]; [by left|congruence|].
        right. eauto.
Qed.

(** C5.  For every list of strings, the output of [normalize_categories] is
    strictly increasing in the order of strings (so sorted and without
    repetition), each of its elements is a catalog category, and it holds
    exactly the categories some input maps to.  Inputs that map to nothing
    add nothing: "shoes" and "clothes", whose synonym entry is empty, and any
    string that is neither a synonym nor a category.  A catalog category maps
    to itself. *)
Theorem normalize_categories_spec (cats : list string) :
  Sorted (λ a b, String.ltb a b = true) (normalize_categories cats)
  ∧ NoDup (normalize_categories cats)
  ∧ (∀ x, x ∈ normalize_categories cats → x ∈ VALID_CATEGORIES)
  ∧ (∀ x, x ∈ normalize_categories cats ↔ ∃ c, c ∈ cats ∧ mapped c = Some x)
  ∧ mapped "shoes" = None ∧ mapped "clothes" = None
  ∧ (∀ c, CATEGORY_SYNONYMS !! Str.strip (Str.lower c) = None →
          Str.strip (Str.lower c) ∉ VALID_CATEGORIES → mapped c = None)
  ∧ (∀ c, c ∈ VALID_CATEGORIES → mapped c = Some c).
Proof.
  assert (∀ x, x ∈ normalize_categories cats
               ↔ ∃ c, c ∈ cats ∧ mapped c = Some x) as Hin.
  { intros x. unfold normalize_categories.
    rewrite (sorted_Permutation String.ltb (λ s, s)), elem_of_elements.
    rewrite elem_of_normalize_fold. split; [|by right].
    by intros [[]%elem_of_empty|?]. }
  assert (NoDup (normalize_categories cats)) as Hnd.
  { unfold normalize_categories.
    rewrite (sorted_Permutation String.ltb (λ s, s)). apply NoDup_elements. }
  split_and!; try done.
  - apply Sorted_NoDup_strict; [|done].
    apply (sorted_Sorted String.ltb (λ s, s)), string_ltb_asym.
  - intros x (c & _ & ?)%Hin. by eapply mapped_valid.
  - intros c E Hc. unfold mapped. rewrite E. simpl.
    by rewrite bool_decide_eq_false_2.
  - apply mapped_of_valid.
Qed.

(** ** Catalog filter engine *)

Lemma passes_satisfies (f : Filters) (p : Product) :
  passes f p = true → satisfies f p.
Proof.
  unfold passes, satisfies.
  intros [[[[H1 H2]%andb_prop H3]%andb_prop H4]%andb_prop H5]%andb_prop.
  split_and!.
  - intros lo E. unfold in_price_min in H1. by rewrite E in H1.
  - intros hi E. unfold in_price_max in H2. by rewrite E in H2.
  - intros r E. unfold in_rating in H3. by rewrite E in H3.
  - intros Hne. unfold in_categories in H4.
    destruct (categories f) as [|c0 cs] eqn:E; [done|].
    apply bool_decide_eq_true_1, elem_of_list_to_set, list_elem_of_fmap in H4
      as (c & Hc & ?).
    eauto.
  - intros k Hk. unfold has_keywords in H5.
    destruct (keywords f) as [|k0 ks] eqn:E; [by apply elem_of_nil in Hk|].
    rewrite forallb_forall in H5. apply H5, list_elem_of_In.
    by apply list_elem_of_fmap_2.
Qed.

Lemma ordered_Permutation (f : Filters) (l : list Product) : ordered f l ≡ₚ l.
Proof.
  unfold ordered. repeat case_match; try done; apply sorted_Permutation.
Qed.

Lemma elem_of_kept (f : Filters) (ps : list Product) (p : Product) :
  p ∈ ordered f (List.filter (passes f) ps) → p ∈ ps ∧ passes f p = true.
Proof.
  rewrite ordered_Permutation, list_elem_of_In, filter_In, <- list_elem_of_In.
  done.
Qed.

(** C6.  On a store where [products] is the list [ps], [apply_filters]
    returns a list each of whose products comes from [ps] and satisfies every
    active predicate: the two price bounds, the rating floor with a missing
    rating read as 0, membership of the lowercased category among the
    lowercased categories, and containment of every lowercased keyword in the
    lowercased "title description category".  The rate of a product
    without rating is 0.  With [price_max = 100], no returned product has a
    price above 100. *)
Theorem apply_filters_sound (h : store) (products : loc)
  (ps : list Product) (f : Filters) :
  h !! products = Some ps →
  ∃ out h' res,
    apply_filters products f h = (out, h')
    ∧ h' !! out = Some res
    ∧ (∀ p, p ∈ res → p ∈ ps ∧ satisfies f p)
    ∧ (∀ p, rating p = None → rate p = Float.of_Z 0)
    ∧ (price_max f = Some (Float.of_Z 100) →
       ∀ p, p ∈ res → Float.ltb (Float.of_Z 100) (price p) = false).
Proof.
  intros H. destruct (apply_filters_holds _ _ _ f H) as (ext & E & Hout & Hres).
  destruct (apply_filters products f h) as [out h'] eqn:Erun. simpl in *.
  exists out, h', (ordered f (List.filter (passes f) ps)).
  split_and!; [done..| | |].
  - intros p [? ?]%elem_of_kept. split; [done|by apply passes_satisfies].
  - intros p Hp. unfold rate. by rewrite Hp.
  - intros Hmax p [_ Hp%passes_satisfies]%elem_of_kept.
    destruct Hp as (_ & Hhi & _). by apply float_leb_not_ltb, Hhi.
Qed.

(** C6, witness: the sample catalog under "electronics up to 100". *)
Lemma apply_filters_sound_witness :
  let f := set_price_max (Some (Float.of_Z 100))
             (set_categories ["Electronics"] no_filter) in
  ∃ out h' res,
    apply_filters 0%nat f [sample_catalog] = (out, h')
    ∧ h' !! out = Some res
    ∧ (∀ p, p ∈ res → p ∈ sample_catalog ∧ satisfies f p)
    ∧ (∀ p, rating p = None → rate p = Float.of_Z 0)
    ∧ (price_max f = Some (Float.of_Z 100) →
       ∀ p, p ∈ res → Float.ltb (Float.of_Z 100) (price p) = false).
Proof.
  exact (apply_filters_sound [sample_catalog] 0%nat sample_catalog _ eq_refl).
Defined.

(** On the sample catalog, "electronics up to 100" keeps the cable alone, and
    the keywords "ssd" and "ELECTRONICS" keep the SSD, whose category holds
    the second. *)
Example sample_electronics_under_100 :
  let f := set_price_max (Some (Float.of_Z 100))
             (set_categories ["Electronics"] no_filter) in
  id <$> List.filter (passes f) sample_catalog = [4].
Proof. by vm_compute. Qed.

Example sample_keywords :
  let f := {| categories := []; keywords := ["ssd"; "ELECTRONICS"];
              price_min := None; price_max := None; rating_min := None;
              sort_by := "relevance" |} in
  id <$> List.filter (passes f) sample_catalog = [3].
Proof. by vm_compute. Qed.

(** [list.sort] rewrites the list it is called on: sorting the catalog itself
    by descending rating changes the list at its address. *)
Example list_sort_in_place :
  let '(_, h') := list_sort (λ p, Float.neg (rate p)) 0%nat [sample_catalog] in
  (fmap (M := list) id <$> h' !! 0%nat) = Some [3; 1; 4; 2]
  ∧ h' !! 0%nat ≠ Some sample_catalog.
Proof. vm_compute. split; [reflexivity|discriminate]. Qed.

(** C10.  [apply_filters] leaves its argument as it was: on a store where
    [products] is the list [ps], the list at [products] is still [ps] after
    the call; the list returned is another object, and no list object of the
    store has changed. *)
Theorem apply_filters_preserves_input (h : store) (products : loc)
  (ps : list Product) (f : Filters) :
  h !! products = Some ps →
  ∃ out h',
    apply_filters products f h = (out, h')
    ∧ h' !! products = Some ps
    ∧ out ≠ products
    ∧ ∀ l, (l < List.length h)%nat → h' !! l = h !! l.
Proof.
  intros H. destruct (apply_filters_holds _ _ _ f H) as (ext & E & Hout & Hres).
  destruct (apply_filters products f h) as [out h'] eqn:Erun. simpl in *.
  exists out, h'. apply lookup_lt_Some in H as Hlt. subst h'.
  split_and!; [done| |lia|].
  - by rewrite lookup_app_l.
  - intros l Hl. by rewrite lookup_app_l.
Qed.

(** C10, witness: the sample catalog sorted by descending price; the sort
    reorders the copy, not the catalog. *)
Lemma apply_filters_preserves_input_witness :
  ∃ out h',
    apply_filters 0%nat (set_sort_by "price_desc" no_filter) [sample_catalog]
      = (out, h')
    ∧ h' !! 0%nat = Some sample_catalog
    ∧ out ≠ 0%nat
    ∧ ∀ l, (l < List.length [sample_catalog])%nat
           → h' !! l = [sample_catalog] !! l.
Proof.
  exact (apply_filters_preserves_input [sample_catalog] 0%nat sample_catalog
           _ eq_refl).
Defined.

Section SortedFloats.
Context (key : Product → float).

Lemma float_eqb_ltb_l (x k y : float) :
  Float.eqb x k = true → Float.ltb x y = Float.ltb k y.
Proof.
  unfold Float.eqb, SFeqb, Float.ltb, SFltb. intros H.
  destruct (SFcompare x k) as [[]|] eqn:E; try done.
  by rewrite (SFcompare_antisym y x), (SFcompare_antisym y k),
    (SFcompare_eq_r _ _ _ E).
Qed.

Lemma sorted_nondecreasing (l : list Product) :
  Forall (λ p, Float.is_nan (key p) = false) l →
  Sorted (λ a b, Float.leb (key a) (key b) = true) (sorted Float.ltb key l).
Proof.
  intros Hl.
  apply (Sorted_Forall_impl (λ p, Float.is_nan (key p) = false)
           (ascending Float.ltb key)).
  - intros a b ? ? ?. by apply float_not_ltb_leb.
  - by rewrite sorted_Permutation.
  - apply sorted_Sorted, float_ltb_asym.
Qed.

Lemma sorted_nonincreasing (l : list Product) :
  Forall (λ p, Float.is_nan (key p) = false) l →
  Sorted (λ a b, Float.leb (key b) (key a) = true)
    (sorted Float.ltb (λ p, Float.neg (key p)) l).
Proof.
  intros Hl.
  apply (Sorted_Forall_impl (λ p, Float.is_nan (key p) = false)
           (ascending Float.ltb (λ p, Float.neg (key p)))).
  - unfold ascending. intros a b ? ?. rewrite float_ltb_neg. by apply float_not_ltb_leb.
  - by rewrite sorted_Permutation.
  - apply sorted_Sorted, float_ltb_asym.
Qed.

Lemma sorted_ties (k : float) (l : list Product) :
  List.filter (λ p, Float.eqb (key p) k) (sorted Float.ltb key l)
  = List.filter (λ p, Float.eqb (key p) k) l.
Proof.
  apply sorted_filter. intros x y Hx Hy.
  rewrite (float_eqb_ltb_r _ _ _ Hx) in Hy. by apply float_ltb_eqb_false.
Qed.

Lemma sorted_neg_ties (k : float) (l : list Product) :
  List.filter (λ p, Float.eqb (key p) k)
    (sorted Float.ltb (λ p, Float.neg (key p)) l)
  = List.filter (λ p, Float.eqb (key p) k) l.
Proof.
  apply sorted_filter. intros x y Hx Hy.
  rewrite float_ltb_neg, (float_eqb_ltb_l _ _ _ Hx) in Hy.
  apply float_ltb_asym in Hy as Hy'. revert Hy Hy'.
  unfold Float.eqb, SFeqb, Float.ltb, SFltb.
  rewrite (SFcompare_antisym k (key y)).
  by destruct (SFcompare k (key y)) as [[]|].
Qed.

End SortedFloats.

(** C7, counterexample.  A catalog of two products, the first with a NaN
    price, the second with price 1, sorted by "price_asc": the result keeps
    the NaN first, and NaN <= 1 is false.  (No arrangement of the two is
    non-decreasing: 1 <= NaN is false too.) *)
Lemma price_asc_nan_unsorted :
  let odd := item 1 "Odd" "electronics" S754_nan None in
  let one := item 2 "One" "electronics" (Float.of_Z 1) None in
  apply_filters 0%nat (set_sort_by "price_asc" no_filter) [[odd; one]]
    = (1%nat, [[odd; one]; [odd; one]])
  ∧ Float.leb (price odd) (price one) = false
  ∧ Float.leb (price one) (price odd) = false.
Proof. vm_compute. split_and!; reflexivity. Qed.

(** C7, amended.  On a store where [products] is the list [ps],
    [apply_filters] returns a rearrangement of the products of [ps] that pass
    the filter.  Under "relevance" it is that list itself, in catalog order.
    Under "price_asc", when no price is NaN, prices never decrease along the
    result; under "price_desc", when no price is NaN, they never increase;
    under "rating_desc", when no rate is NaN, rates (0 for a missing rating)
    never increase.  In each of the three, under the same condition, the
    products of equal price (of equal rate, for "rating_desc") stand in the
    order they had in the catalog. *)
Theorem apply_filters_order (h : store) (products : loc)
  (ps : list Product) (f : Filters) :
  h !! products = Some ps →
  ∃ out h' res,
    apply_filters products f h = (out, h')
    ∧ h' !! out = Some res
    ∧ res ≡ₚ List.filter (passes f) ps
    ∧ (sort_by f = "relevance" → res = List.filter (passes f) ps)
    ∧ (sort_by f = "price_asc" →
       Forall (λ p, Float.is_nan (price p) = false) ps →
       Sorted (λ a b, Float.leb (price a) (price b) = true) res
       ∧ ∀ k, priced k res = priced k (List.filter (passes f) ps))
    ∧ (sort_by f = "price_desc" →
       Forall (λ p, Float.is_nan (price p) = false) ps →
       Sorted (λ a b, Float.leb (price b) (price a) = true) res
       ∧ ∀ k, priced k res = priced k (List.filter (passes f) ps))
    ∧ (sort_by f = "rating_desc" →
       Forall (λ p, Float.is_nan (rate p) = false) ps →
       Sorted (λ a b, Float.leb (rate b) (rate a) = true) res
       ∧ ∀ k, rated k res = rated k (List.filter (passes f) ps)).
Proof.
  intros H. destruct (apply_filters_holds _ _ _ f H) as (ext & E & Hout & Hres).
  destruct (apply_filters products f h) as [out h'] eqn:Erun. simpl in *.
  exists out, h', (ordered f (List.filter (passes f) ps)).
  assert (∀ P : Product → Prop, Forall P ps →
            Forall P (List.filter (passes f) ps)) as Hsub.
  { intros P HP. rewrite Forall_forall in *. intros p Hp. apply HP.
    apply list_elem_of_In, filter_In in Hp as [Hp _]. by apply list_elem_of_In. }
  split_and!; [done..|apply ordered_Permutation| | | |];
    intros Hs; unfold ordered; rewrite Hs; simpl; [done|..]; intros Hnan;
    apply Hsub in Hnan.
  - split; [by apply sorted_nondecreasing|intros k; apply sorted_ties].
  - split; [by apply sorted_nonincreasing|intros k; apply sorted_neg_ties].
  - split;
      [by apply (sorted_nonincreasing rate)
      |intros k; apply (sorted_neg_ties rate)].
Qed.

(** C7, witness: the sample catalog by descending rating. *)
Lemma apply_filters_order_witness :
  let f := set_sort_by "rating_desc" no_filter in
  ∃ out h' res,
    apply_filters 0%nat f [sample_catalog] = (out, h')
    ∧ h' !! out = Some res
    ∧ res ≡ₚ List.filter (passes f) sample_catalog
    ∧ (sort_by f = "relevance" → res = List.filter (passes f) sample_catalog)
    ∧ (sort_by f = "price_asc" →
       Forall (λ p, Float.is_nan (price p) = false) sample_catalog →
       Sorted (λ a b, Float.leb (price a) (price b) = true) res
       ∧ ∀ k, priced k res = priced k (List.filter (passes f) sample_catalog))
    ∧ (sort_by f = "price_desc" →
       Forall (λ p, Float.is_nan (price p) = false) sample_catalog →
       Sorted (λ a b, Float.leb (price b) (price a) = true) res
       ∧ ∀ k, priced k res = priced k (List.filter (passes f) sample_catalog))
    ∧ (sort_by f = "rating_desc" →
       Forall (λ p, Float.is_nan (rate p) = false) sample_catalog →
       Sorted (λ a b, Float.leb (rate b) (rate a) = true) res
       ∧ ∀ k, rated k res = rated k (List.filter (passes f) sample_catalog)).
Proof.
  exact (apply_filters_order [sample_catalog] 0%nat sample_catalog _ eq_refl).
Defined.

(** What the sorts do to the sample catalog: by descending rating the
    unrated ring comes last; by descending price the two products at 110
    and the two at 10 keep their catalog order. *)
Example sample_by_rating :
  id <$> ordered (set_sort_by "rating_desc" no_filter) sample_catalog
  = [3; 1; 4; 2].
Proof. by vm_compute. Qed.

Example sample_by_price_desc :
  id <$> ordered (set_sort_by "price_desc" no_filter) sample_catalog
  = [1; 3; 2; 4].
Proof. by vm_compute. Qed.

(** ** Request handler *)

(** C8.  The model's [rating_min] reaches the response unchecked: with an
    upstream whose model answers [rating_min = 7], the search succeeds after
    both network calls, the filter it applied and returns has
    [rating_min = 7], and 7 <= 5 is false. *)
Theorem rating_min_unchecked :
  ∃ resp,
    nlp_search upstream_rating_7 (Some "electronics") []
      = (inr resp, [PostGenerate "electronics"; GetProducts])
    ∧ rating_min (filters resp) = Some (Float.of_Z 7)
    ∧ Float.leb (Float.of_Z 7) (Float.of_Z 5) = false
    ∧ results resp = [].
Proof. eexists. vm_compute. split_and!; reflexivity. Qed.

(** C9.  A request whose query is null, empty or blank is answered with the
    client error 400 "Missing query", and the log of network calls is the one
    the handler started with: neither the completion endpoint nor the catalog
    is called. *)
Theorem nlp_search_missing_query (up : Upstream) (log : list NetCall) :
  let missing := (inl {| status_code := 400; detail := "Missing query" |}, log) in
  nlp_search up None log = missing
  ∧ nlp_search up (Some "") log = missing
  ∧ ∀ q, Str.strip q = "" → nlp_search up (Some q) log = missing.
Proof.
  split_and!; [reflexivity..|].
  intros q Hq. unfold nlp_search. simpl. by rewrite Hq.
Qed.

(** * Further properties of the code *)

(** ** Floats read from the text *)

Section Rounding.

Lemma shr_1_nonneg mrs : 0 ≤ shr_m mrs → 0 ≤ shr_m (shr_1 mrs).
Proof. destruct mrs as [[|[p|p|]|p] r s]; simpl; lia. Qed.

Lemma iter_shr_1_nonneg p : ∀ mrs,
  0 ≤ shr_m mrs → 0 ≤ shr_m (SpecFloat.iter_pos shr_1 p mrs).
Proof.
  induction p as [p IH|p IH|]; intros mrs H; simpl.
  - apply IH, IH. by apply shr_1_nonneg.
  - by apply IH, IH.
  - by apply shr_1_nonneg.
Qed.

Lemma shr_fexp_nonneg m e l :
  0 ≤ m → 0 ≤ shr_m (shr_fexp prec emax m e l).1.
Proof.
  intros H. unfold shr_fexp, shr.
  assert (0 ≤ shr_m (shr_record_of_loc m l)) by (by destruct l as [|[]]).
  destruct (_ - e); simpl; [done| |done]. by apply iter_shr_1_nonneg.
Qed.

Lemma round_nearest_even_nonneg m l : 0 ≤ m → 0 ≤ round_nearest_even m l.
Proof. intros. destruct l as [|[]]; simpl; try lia. destruct (Z.even m); lia. Qed.

Lemma binary_round_aux_nonnegative m e l :
  0 ≤ m → nonnegative (binary_round_aux prec emax false m e l) = true.
Proof.
  intros H. unfold binary_round_aux.
  pose proof (shr_fexp_nonneg m e l H) as H1.
  destruct (shr_fexp prec emax m e l) as [mrs' e']. simpl in H1.
  pose proof (shr_fexp_nonneg _ e' loc_Exact
                (round_nearest_even_nonneg _ (loc_of_shr_record mrs') H1)) as H2.
  destruct (shr_fexp prec emax _ e' loc_Exact) as [mrs'' e'']. simpl in H2.
  destruct (shr_m mrs''); [done| |lia]. by destruct (_ <=? _).
Qed.

Lemma of_decimal_nonnegative n k : nonnegative (of_decimal n k) = true.
Proof.
  destruct n as [|p]; [done|]. unfold of_decimal, SFdiv, SFdiv_core_binary.
  set (m' := match _ - _ with Z0 => _ | Zpos _ => _ | Zneg _ => _ end).
  assert (0 ≤ m') as Hm.
  { unfold m'. destruct (_ - _); try lia. apply Z.shiftl_nonneg. lia. }
  pose proof (Z.div_pos m' (Z.pos (Z.to_pos (10 ^ Z.of_nat k))) Hm ltac:(lia)) as Hq.
  unfold Z.div in Hq. destruct (Z.div_eucl m' _) as [q r]. simpl in Hq.
  by apply binary_round_aux_nonnegative.
Qed.

End Rounding.

Lemma to_float_nonnegative s x : Str.to_float s = Some x → nonnegative x = true.
Proof.
  unfold Str.to_float. destruct (Str.split_point s) as [[|c i] [[|c' f]|]];
    try done; intros H; apply bind_Some in H as (n & _ & [= <-]);
    apply of_decimal_nonnegative.
Qed.

Lemma nonnegative_not_nan x : nonnegative x = true → is_nan x = false.
Proof. by destruct x as [[]|[]| |[] ? ?]. Qed.

(** ** Extractor: shape of the result *)

Lemma float_leb_total a b :
  is_nan a = false → is_nan b = false → leb a b = false → leb b a = true.
Proof.
  unfold leb, SFleb. rewrite (SFcompare_antisym a b). intros Ha Hb.
  destruct (SFcompare a b) as [[]|] eqn:E; try done.
  apply SFcompare_None in E as [E|E]; congruence.
Qed.

Lemma group_float_nonnegative (m : Re.groups) i x :
  group_float m i = Some x → nonnegative x = true.
Proof.
  unfold group_float. intros (g & _ & H)%bind_Some.
  by eapply to_float_nonnegative.
Qed.

Lemma extract_price_constraints_shape q pmin pmax :
  extract_price_constraints q = Some (pmin, pmax) →
  (∀ a, pmin = Some a → nonnegative a = true)
  ∧ (∀ b, pmax = Some b → nonnegative b = true)
  ∧ (∀ a b, pmin = Some a → pmax = Some b → Float.leb a b = true).
Proof.
  unfold extract_price_constraints.
  destruct (Re.search RANGE_RE _) as [m|].
  { intros (a & Ha & (b & Hb & H)%bind_Some)%bind_Some.
    apply group_float_nonnegative in Ha as Na, Hb as Nb.
    pose proof (nonnegative_not_nan _ Na). pose proof (nonnegative_not_nan _ Nb).
    destruct (Float.leb a b) eqn:E; injection H as <- <-;
      (split_and!; [by intros ? [= <-]..|intros ? ? [= <-] [= <-]]);
      [done|by apply float_leb_total]. }
  destruct (Re.search UPPER_RE _) as [m|].
  { intros (b & Hb%group_float_nonnegative & [= <- <-])%bind_Some.
    split_and!; [done|by intros ? [= <-]|done]. }
  destruct (Re.search LOWER_RE _) as [m|].
  { intros (a & Ha%group_float_nonnegative & [= <- <-])%bind_Some.
    split_and!; [by intros ? [= <-]|done|done]. }
  intros [= <- <-]. done.
Qed.

(** X1.  On every query text the extractor returns (no exception), each
    bound it returns is plus zero, a positive float or plus infinity, hence
    never NaN and never negative, and when it returns two bounds the lower
    one is <= the upper one. *)
Theorem extract_price_constraints_wellformed (q : string) :
  ∃ pmin pmax,
    extract_price_constraints q = Some (pmin, pmax)
    ∧ (∀ a, pmin = Some a → nonnegative a = true)
    ∧ (∀ b, pmax = Some b → nonnegative b = true)
    ∧ (∀ a b, pmin = Some a → pmax = Some b → Float.leb a b = true).
Proof.
  destruct (extract_price_constraints_returns q) as [[pmin pmax] E].
  exists pmin, pmax. split; [done|].
  by apply (extract_price_constraints_shape q).
Qed.

(** ** Reconciliation: what each kind of extraction does *)

Lemma harden_with_bounds pmin pmax f :
  ∃ lo hi, harden pmin pmax f = with_bounds f lo hi.
Proof.
  unfold harden. rewrite (with_bounds_eta f).
  generalize (price_min f) (price_max f). intros lo hi.
  assert (∀ lo hi, ∃ lo' hi',
            swap_inverted (with_bounds f lo hi) = with_bounds f lo' hi') as Hs.
  { intros lo' hi'. rewrite swap_inverted_with_bounds.
    destruct (inverted _); eauto. }
  destruct pmin as [a|], pmax as [b|].
  - rewrite override_range. apply Hs.
  - rewrite override_lower. apply Hs.
  - rewrite override_upper. apply Hs.
  - apply Hs.
Qed.

(** X5.  Reconciliation returns on every query and filter, and leaves
    categories, keywords, rating_min and sort_by as the model gave them. *)
Theorem reconcile_frame (q : string) (f : Filters) :
  ∃ f', reconcile q f = Some f'
    ∧ categories f' = categories f
    ∧ keywords f' = keywords f
    ∧ rating_min f' = rating_min f
    ∧ sort_by f' = sort_by f.
Proof.
  destruct (extract_price_constraints_returns q) as [[pmin pmax] E].
  exists (harden pmin pmax f). unfold reconcile. rewrite E. simpl.
  destruct (harden_with_bounds pmin pmax f) as (lo & hi & ->). done.
Qed.

(** X6.  When the text holds a range (a, b), the model's bounds play no
    part: the reconciled bounds are (a, b), except that for a == b the lower
    bound is cleared and only the upper one stays. *)
Theorem reconcile_range (q : string) (f : Filters) (a b : float) :
  extract_price_constraints q = Some (Some a, Some b) →
  reconcile q f
  = Some (with_bounds f (if Float.eqb a b then None else Some a) (Some b)).
Proof.
  intros E. unfold reconcile. rewrite E. simpl. f_equal.
  apply extract_price_constraints_shape in E as (_ & _ & Hab).
  specialize (Hab a b eq_refl eq_refl). apply float_leb_not_ltb in Hab.
  unfold harden. rewrite (with_bounds_eta f) at 1.
  rewrite override_range, swap_inverted_with_bounds, inverted_with_bounds.
  destruct (Float.eqb a b); [done|]. by rewrite Hab.
Qed.

Lemma reconcile_range_witness :
  reconcile "between $20 and $50"
    (set_price_min (Some (Float.of_Z 70)) (set_price_max (Some S754_nan) no_filter))
  = Some (with_bounds
            (set_price_min (Some (Float.of_Z 70))
               (set_price_max (Some S754_nan) no_filter))
            (if Float.eqb (Float.of_Z 20) (Float.of_Z 50)
             then None else Some (Float.of_Z 20))
            (Some (Float.of_Z 50))).
Proof. exact (reconcile_range "between $20 and $50" _ _ _ eq_refl). Defined.

(** X7.  When the text gives an upper bound [b] alone, the model's
    price_max is discarded.  With no price_min in the model, or one equal to
    [b], the bounds become (absent, b); with a price_min [m] above [b] the pair
    is swapped to (b, m), the literal upper bound ending as the lower one;
    otherwise they are (m, b). *)
Theorem reconcile_upper_only (q : string) (f : Filters) (b : float) :
  extract_price_constraints q = Some (None, Some b) →
  reconcile q f
  = Some match price_min f with
         | None => with_bounds f None (Some b)
         | Some m =>
             if Float.eqb m b then with_bounds f None (Some b)
             else if Float.ltb b m then with_bounds f (Some b) (Some m)
             else with_bounds f (Some m) (Some b)
         end.
Proof.
  intros E. unfold reconcile. rewrite E. simpl. f_equal.
  unfold harden. rewrite (with_bounds_eta f) at 1.
  rewrite override_upper, swap_inverted_with_bounds, inverted_with_bounds.
  destruct (price_min f) as [m|]; cbn [eq_float]; [|done].
  destruct (Float.eqb m b); [done|]. by destruct (Float.ltb b m).
Qed.

Lemma reconcile_upper_only_witness :
  let f := set_price_min (Some (Float.of_Z 200)) no_filter in
  reconcile "under $100" f
  = Some match price_min f with
         | None => with_bounds f None (Some (Float.of_Z 100))
         | Some m =>
             if Float.eqb m (Float.of_Z 100)
             then with_bounds f None (Some (Float.of_Z 100))
             else if Float.ltb (Float.of_Z 100) m
             then with_bounds f (Some (Float.of_Z 100)) (Some m)
             else with_bounds f (Some m) (Some (Float.of_Z 100))
         end.
Proof. exact (reconcile_upper_only "under $100" _ _ eq_refl). Defined.

(** X8.  When the text gives a lower bound [a] alone, the model's
    price_min is discarded.  With no price_max in the model, or one equal to
    [a], the bounds become (a, absent); with a price_max [m] below [a] the pair
    is swapped to (m, a); otherwise they are (a, m). *)
Theorem reconcile_lower_only (q : string) (f : Filters) (a : float) :
  extract_price_constraints q = Some (Some a, None) →
  reconcile q f
  = Some match price_max f with
         | None => with_bounds f (Some a) None
         | Some m =>
             if Float.eqb m a then with_bounds f (Some a) None
             else if Float.ltb m a then with_bounds f (Some m) (Some a)
             else with_bounds f (Some a) (Some m)
         end.
Proof.
  intros E. unfold reconcile. rewrite E. simpl. f_equal.
  unfold harden. rewrite (with_bounds_eta f) at 1.
  rewrite override_lower, swap_inverted_with_bounds, inverted_with_bounds.
  destruct (price_max f) as [m|]; cbn [eq_float]; [|done].
  destruct (Float.eqb m a); [done|]. by destruct (Float.ltb m a).
Qed.

Lemma reconcile_lower_only_witness :
  let f := set_price_max (Some (Float.of_Z 50)) no_filter in
  reconcile "over $100" f
  = Some match price_max f with
         | None => with_bounds f (Some (Float.of_Z 100)) None
         | Some m =>
             if Float.eqb m (Float.of_Z 100)
             then with_bounds f (Some (Float.of_Z 100)) None
             else if Float.ltb m (Float.of_Z 100)
             then with_bounds f (Some m) (Some (Float.of_Z 100))
             else with_bounds f (Some (Float.of_Z 100)) (Some m)
         end.
Proof. exact (reconcile_lower_only "over $100" _ _ eq_refl). Defined.

(** ** The catalog filter engine: completeness and idempotence *)

Lemma satisfies_passes (f : Filters) (p : Product) :
  satisfies f p → passes f p = true.
Proof.
  intros (H1 & H2 & H3 & H4 & H5). unfold passes.
  repeat (apply andb_true_intro; split).
  - unfold in_price_min. destruct (price_min f); auto.
  - unfold in_price_max. destruct (price_max f); auto.
  - unfold in_rating. destruct (rating_min f); auto.
  - unfold in_categories. destruct (categories f) as [|c0 cs] eqn:E; [done|].
    destruct H4 as (c & Hc & Hl); [done|].
    apply bool_decide_eq_true_2, elem_of_list_to_set, list_elem_of_fmap.
    eauto.
  - unfold has_keywords. destruct (keywords f) as [|k0 ks] eqn:E; [done|].
    apply forallb_forall. intros k' Hk'.
    apply list_elem_of_In, list_elem_of_fmap in Hk' as (k & -> & Hk).
    by apply H5.
Qed.

(** X9.  [apply_filters] returns exactly the products of its argument that
    satisfy the active predicates, no more and no fewer, so never more
    products than it was given. *)
Theorem apply_filters_complete (h : store) (products : loc)
  (ps : list Product) (f : Filters) :
  h !! products = Some ps →
  ∃ out h' res,
    apply_filters products f h = (out, h')
    ∧ h' !! out = Some res
    ∧ (∀ p, p ∈ res ↔ p ∈ ps ∧ satisfies f p)
    ∧ (List.length res ≤ List.length ps)%nat.
Proof.
  intros H. destruct (apply_filters_holds _ _ _ f H) as (ext & E & Hout & Hres).
  destruct (apply_filters products f h) as [out h'] eqn:Erun. simpl in *.
  exists out, h', (ordered f (List.filter (passes f) ps)).
  split_and!; [done..| |].
  - intros p.
    rewrite ordered_Permutation, list_elem_of_In, filter_In, <- list_elem_of_In.
    split; intros [? ?]; split; auto using passes_satisfies, satisfies_passes.
  - rewrite ordered_Permutation. apply filter_length_le.
Qed.

Lemma apply_filters_complete_witness :
  let f := set_price_max (Some (Float.of_Z 100)) no_filter in
  ∃ out h' res,
    apply_filters 0%nat f [sample_catalog] = (out, h')
    ∧ h' !! out = Some res
    ∧ (∀ p, p ∈ res ↔ p ∈ sample_catalog ∧ satisfies f p)
    ∧ (List.length res ≤ List.length sample_catalog)%nat.
Proof.
  exact (apply_filters_complete [sample_catalog] 0%nat sample_catalog _ eq_refl).
Defined.

Section SortAgain.
Context {A K : Type} (lt : K → K → bool) (key : A → K).

Lemma sorted_of_Sorted (l : list A) :
  Sorted (ascending lt key) l → sorted lt key l = l.
Proof.
  induction 1 as [|x l Hl IH Hx]; simpl; [done|]. rewrite IH.
  destruct Hx as [|y l Hy]; simpl; [done|].
  unfold ascending in Hy. by rewrite Hy.
Qed.

Lemma sorted_sorted (l : list A) :
  (∀ a b, lt a b = true → lt b a = false) →
  sorted lt key (sorted lt key l) = sorted lt key l.
Proof. intros. by apply sorted_of_Sorted, sorted_Sorted. Qed.

End SortAgain.

Lemma filter_all {A} (P : A → bool) (l : list A) :
  Forall (λ x, P x = true) l → List.filter P l = l.
Proof. induction 1 as [|x l Hx _ IH]; simpl; [done|]. by rewrite Hx, IH. Qed.

Lemma filter_Forall {A} (P : A → bool) (l : list A) :
  Forall (λ x, P x = true) (List.filter P l).
Proof.
  apply Forall_forall. intros x Hx%list_elem_of_In%filter_In. tauto.
Qed.

Lemma ordered_ordered (f : Filters) (l : list Product) :
  ordered f (ordered f l) = ordered f l.
Proof.
  unfold ordered. repeat case_match; try done;
    apply sorted_sorted, float_ltb_asym.
Qed.

Lemma kept_again (f : Filters) (ps : list Product) :
  let res := ordered f (List.filter (passes f) ps) in
  ordered f (List.filter (passes f) res) = res.
Proof.
  simpl. rewrite (filter_all (passes f) (ordered f _)).
  - apply ordered_ordered.
  - rewrite ordered_Permutation. apply filter_Forall.
Qed.

(** X10.  Filtering a result again with the same filter changes nothing:
    on a catalog whose prices and rates are not NaN (where the model of
    [list.sort] is exact), [apply_filters] applied to the list it returned
    returns a list with the same products in the same order, and leaves the
    first result as it was. *)
Theorem apply_filters_idempotent (h : store) (products : loc)
  (ps : list Product) (f : Filters) :
  h !! products = Some ps →
  Forall (λ p, Float.is_nan (price p) = false
               ∧ Float.is_nan (rate p) = false) ps →
  ∃ out h' out' h'' res,
    apply_filters products f h = (out, h')
    ∧ apply_filters out f h' = (out', h'')
    ∧ h' !! out = Some res
    ∧ h'' !! out' = Some res
    ∧ h'' !! out = Some res.
Proof.
  intros H _. destruct (apply_filters_holds _ _ _ f H) as (ext & E & Hout & Hres).
  destruct (apply_filters products f h) as [out h'] eqn:Erun. simpl in *.
  destruct (apply_filters_holds _ _ _ f Hres) as (ext' & E' & Hout' & Hres').
  destruct (apply_filters out f h') as [out' h''] eqn:Erun'. simpl in *.
  rewrite kept_again in Hres'.
  exists out, h', out', h'', (ordered f (List.filter (passes f) ps)).
  split_and!; try done.
  subst h''. rewrite lookup_app_l; [done|]. by eapply lookup_lt_Some.
Qed.

Lemma apply_filters_idempotent_witness :
  ∃ out h' out' h'' res,
    apply_filters 0%nat (set_sort_by "price_desc" no_filter) [sample_catalog]
      = (out, h')
    ∧ apply_filters out (set_sort_by "price_desc" no_filter) h' = (out', h'')
    ∧ h' !! out = Some res
    ∧ h'' !! out' = Some res
    ∧ h'' !! out = Some res.
Proof.
  apply (apply_filters_idempotent [sample_catalog] 0%nat sample_catalog _ eq_refl).
  repeat constructor.
Defined.

Lemma passes_unconstrained (f : Filters) (p : Product) :
  price_min f = None → price_max f = None → rating_min f = None →
  categories f = [] → keywords f = [] → passes f p = true.
Proof.
  intros H1 H2 H3 H4 H5.
  unfold passes, in_price_min, in_price_max, in_rating, in_categories,
    has_keywords.
  by rewrite H1, H2, H3, H4, H5.
Qed.

(** X11.  Edge cases of [apply_filters]: an empty catalog gives an empty
    result whatever the filter, and a filter with no bound, no rating floor,
    no category, no keyword and the sort "relevance" gives the catalog back,
    in order. *)
Theorem apply_filters_edges (h : store) (products : loc)
  (ps : list Product) (f : Filters) :
  h !! products = Some ps →
  ∃ out h' res,
    apply_filters products f h = (out, h')
    ∧ h' !! out = Some res
    ∧ (ps = [] → res = [])
    ∧ (price_min f = None → price_max f = None → rating_min f = None →
       categories f = [] → keywords f = [] → sort_by f = "relevance" →
       res = ps).
Proof.
  intros H. destruct (apply_filters_holds _ _ _ f H) as (ext & E & Hout & Hres).
  destruct (apply_filters products f h) as [out h'] eqn:Erun. simpl in *.
  exists out, h', (ordered f (List.filter (passes f) ps)).
  split_and!; [done..| |].
  - intros ->. simpl. apply Permutation_nil_r.
    by rewrite ordered_Permutation.
  - intros H1 H2 H3 H4 H5 Hs. unfold ordered. rewrite Hs. simpl.
    apply filter_all, Forall_forall. intros p _.
    by apply passes_unconstrained.
Qed.

Lemma apply_filters_edges_witness :
  ∃ out h' res,
    apply_filters 0%nat no_filter [sample_catalog] = (out, h')
    ∧ h' !! out = Some res
    ∧ (sample_catalog = [] → res = [])
    ∧ (price_min no_filter = None → price_max no_filter = None →
       rating_min no_filter = None → categories no_filter = [] →
       keywords no_filter = [] → sort_by no_filter = "relevance" →
       res = sample_catalog).
Proof.
  exact (apply_filters_edges [sample_catalog] 0%nat sample_catalog no_filter
           eq_refl).
Defined.

(** ** Strings: letter case and commas *)

Lemma lower_char_idem c : Str.lower_char (Str.lower_char c) = Str.lower_char c.
Proof. by destruct c as [[] [] [] [] [] [] [] []]. Qed.

Lemma lower_idem s : Str.lower (Str.lower s) = Str.lower s.
Proof. induction s as [|c s IH]; simpl; [done|]. by rewrite lower_char_idem, IH. Qed.

Lemma lower_char_comma c :
  Ascii.eqb (Str.lower_char c) "," = Ascii.eqb c ",".
Proof. by destruct c as [[] [] [] [] [] [] [] []]. Qed.

Lemma lower_replace_comma s :
  Str.lower (Str.replace "," "" s) = Str.replace "," "" (Str.lower s).
Proof.
  induction s as [|c s IH]; simpl; [done|]. rewrite lower_char_comma.
  destruct (Ascii.eqb c ","); simpl; by rewrite ?append_nil_l, IH.
Qed.

Lemma replace_comma_idem s :
  Str.replace "," "" (Str.replace "," "" s) = Str.replace "," "" s.
Proof.
  induction s as [|c s IH]; simpl; [done|].
  destruct (Ascii.eqb c ",") eqn:E; rewrite ?append_nil_l; [done|].
  simpl. by rewrite E, IH.
Qed.

(** X2.  The extractor ignores letter case and commas: lowercasing the
    query beforehand, or deleting its commas, changes nothing. *)
Theorem extract_price_constraints_case_commas (q : string) :
  extract_price_constraints (Str.lower q) = extract_price_constraints q
  ∧ extract_price_constraints (Str.replace "," "" q)
    = extract_price_constraints q.
Proof.
  unfold extract_price_constraints.
  by rewrite lower_idem, lower_replace_comma, replace_comma_idem.
Qed.

(** ** Sort sanitizer: a projection *)

Lemma sanitize_sort_by_allowed (value : option string) :
  sanitize_sort_by value ∈ ALLOWED_SORT.
Proof.
  unfold sanitize_sort_by. destruct value as [[|c s]|].
  1, 3: apply allowed_sort_elem; auto.
  case_bool_decide; [done|].
  repeat case_match; apply allowed_sort_elem; auto.
Qed.

(** X12.  [sanitize_sort_by] is a projection on the allowed sort keys: it
    returns its own results unchanged, an allowed key is returned as it is,
    and the letter case of the input does not matter. *)
Theorem sanitize_sort_by_projection (value : option string) :
  sanitize_sort_by (Some (sanitize_sort_by value)) = sanitize_sort_by value
  ∧ (∀ v, v ∈ ALLOWED_SORT → sanitize_sort_by (Some v) = v)
  ∧ (∀ s, sanitize_sort_by (Some (Str.lower s)) = sanitize_sort_by (Some s)).
Proof.
  assert (∀ v, v ∈ ALLOWED_SORT → sanitize_sort_by (Some v) = v) as Hfix.
  { by intros v [->|[->|[->| ->]]]%allowed_sort_elem. }
  split_and!; [|done|].
  - apply Hfix. apply (sanitize_sort_by_allowed value).
  - intros [|c s]; [done|].
    assert (∀ t t', t ≠ "" → t' ≠ "" →
              Str.strip (Str.lower t) = Str.strip (Str.lower t') →
              sanitize_sort_by (Some t) = sanitize_sort_by (Some t')) as H.
    { intros [|? ?] [|? ?] ? ? E; try done. unfold sanitize_sort_by.
      by rewrite E. }
    apply H; [done..|]. by rewrite lower_idem.
Qed.

(** ** Category normalizer: a projection on sets of inputs *)

Lemma normalize_fold_ext (cats cats' : list string) :
  (∀ x, (∃ c, c ∈ cats ∧ mapped c = Some x)
        ↔ (∃ c, c ∈ cats' ∧ mapped c = Some x)) →
  normalize_categories cats = normalize_categories cats'.
Proof.
  intros H. unfold normalize_categories. f_equal. f_equal.
  apply set_eq. intros x. rewrite !elem_of_normalize_fold.
  split; (intros [[]%elem_of_empty|?]; right); by apply H.
Qed.

Lemma elem_of_normalize_categories (cats : list string) (x : string) :
  x ∈ normalize_categories cats ↔ ∃ c, c ∈ cats ∧ mapped c = Some x.
Proof.
  unfold normalize_categories.
  rewrite (sorted_Permutation String.ltb (λ s, s)), elem_of_elements.
  rewrite elem_of_normalize_fold. split; [|by right].
  by intros [[]%elem_of_empty|?].
Qed.

(** X13.  [normalize_categories] is a projection: normalizing its own
    output changes nothing; the output depends on which strings are in the
    input, not on their order or repetition; and it never has more than four
    elements. *)
Theorem normalize_categories_projection (cats : list string) :
  normalize_categories (normalize_categories cats) = normalize_categories cats
  ∧ (∀ cats', (∀ c, c ∈ cats ↔ c ∈ cats') →
              normalize_categories cats' = normalize_categories cats)
  ∧ (List.length (normalize_categories cats) ≤ 4)%nat.
Proof.
  split_and!.
  - apply normalize_fold_ext. intros x. split.
    + intros (c & Hc & Hx). rewrite elem_of_normalize_categories in Hc.
      destruct Hc as (c0 & Hc0 & Hm).
      rewrite (mapped_of_valid c) in Hx by (by eapply mapped_valid).
      injection Hx as <-. eauto.
    + intros (c & Hc & Hx). exists x. split.
      * apply elem_of_normalize_categories. eauto.
      * apply mapped_of_valid. by eapply mapped_valid.
  - intros cats' H. apply normalize_fold_ext. intros x.
    split; intros (c & Hc & Hx); exists c; split; try done; by apply H.
  - change 4%nat with (List.length (elements VALID_CATEGORIES)).
    apply submseteq_length, NoDup_submseteq.
    + unfold normalize_categories.
      rewrite (sorted_Permutation String.ltb (λ s, s)). apply NoDup_elements.
    + intros x (c & _ & Hx)%elem_of_normalize_categories.
      apply elem_of_elements. by eapply mapped_valid.
Qed.

(** ** The request handler: outcomes and network calls *)

Lemma truthy_false s : Str.truthy s = false ↔ s = "".
Proof. by destruct s. Qed.

Lemma call_mistral_run up q log :
  call_mistral up q log
  = let '(status, text) := ollama up q in
    if negb (status =? 200)%Z
    then (inl {| status_code := 502; detail := "Ollama error: " +:+ text |},
          (log ++ [PostGenerate q])%list)
    else match json_loads up text with
         | None => (inl {| status_code := 500;
                           detail := "Model returned non-JSON." |},
                    (log ++ [PostGenerate q])%list)
         | Some parsed => (inr (filters_of_json parsed),
                           (log ++ [PostGenerate q])%list)
         end.
Proof.
  unfold call_mistral. destruct (ollama up q) as [status text].
  unfold mbind, Net_bind, call. simpl.
  destruct (negb _); [done|]. by destruct (json_loads up text).
Qed.

Lemma apply_filters_fresh f ps :
  let '(out, h) := apply_filters 0%nat f [ps] in
  default [] (h !! out) = ordered f (List.filter (passes f) ps).
Proof.
  destruct (apply_filters_holds [ps] 0%nat ps f eq_refl) as (ext & E & _ & Hres).
  destruct (apply_filters 0%nat f [ps]) as [out h]. simpl in *. by rewrite Hres.
Qed.

Lemma nlp_search_run up query log :
  let q := Str.strip (default "" query) in
  nlp_search up query log
  = if negb (Str.truthy q)
    then (inl {| status_code := 400; detail := "Missing query" |}, log)
    else
      match call_mistral up q log with
      | (inl e, log') => (inl e, log')
      | (inr f, log') =>
          match reconcile q f with
          | None => (inl {| status_code := 500;
                            detail := "Internal Server Error" |}, log')
          | Some f' =>
              match fakestore up with
              | None => (inl {| status_code := 500;
                                detail := "Internal Server Error" |},
                         (log' ++ [GetProducts])%list)
              | Some ps => (inr (response_of f' ps), (log' ++ [GetProducts])%list)
              end
          end
      end.
Proof.
  simpl. unfold nlp_search. destruct (negb _); [done|].
  unfold mbind at 1, Net_bind at 1.
  destruct (call_mistral up _ log) as [[e|f] log']; [done|].
  destruct (reconcile _ f) as [f'|]; [|done].
  unfold mbind, Net_bind, fetch_products, call. simpl.
  destruct (fakestore up) as [ps|]; [|done]. simpl.
  pose proof (apply_filters_fresh f' ps) as H.
  destruct (apply_filters 0%nat f' [ps]) as [out h]. simpl.
  unfold mret, Net_ret, response_of. by rewrite H.
Qed.

Lemma reconcile_returns q f : is_Some (reconcile q f).
Proof.
  destruct (extract_price_constraints_returns q) as [[pmin pmax] E].
  unfold reconcile. rewrite E. simpl. eauto.
Qed.

Lemma reconcile_Some_inv q f f' :
  reconcile q f = Some f' →
  inverted f' = false ∧ categories f' = categories f
  ∧ keywords f' = keywords f ∧ rating_min f' = rating_min f
  ∧ sort_by f' = sort_by f.
Proof.
  unfold reconcile. intros ([pmin pmax] & _ & [= <-])%bind_Some. split.
  - apply swap_inverted_not_inverted.
  - by destruct (harden_with_bounds pmin pmax f) as (lo & hi & ->).
Qed.

(** X14.  A successful search made exactly two network calls, the
    completion first and the catalog second, on a query that is not blank.
    The filter it returns has an allowed sort key, catalog categories only
    and no inverted price pair; its keywords and rating_min are the model's
    own; the count is the number of results; and the results are exactly the
    products of the fetched catalog that satisfy the returned filter. *)
Theorem nlp_search_success (up : Upstream) (query : option string)
  (log log' : list NetCall) (resp : SearchResponse) :
  nlp_search up query log = (inr resp, log') →
  let q := Str.strip (default "" query) in
  q ≠ ""
  ∧ log' = (log ++ [PostGenerate q; GetProducts])%list
  ∧ sort_by (filters resp) ∈ ALLOWED_SORT
  ∧ (∀ c, c ∈ categories (filters resp) → c ∈ VALID_CATEGORIES)
  ∧ inverted (filters resp) = false
  ∧ count resp = List.length (results resp)
  ∧ (∃ parsed, json_loads up (ollama up q).2 = Some parsed
       ∧ keywords (filters resp) = json_keywords parsed
       ∧ rating_min (filters resp) = json_rating_min parsed)
  ∧ (∃ ps, fakestore up = Some ps
       ∧ ∀ p, p ∈ results resp ↔ p ∈ ps ∧ satisfies (filters resp) p).
Proof.
  rewrite nlp_search_run. simpl. set (q := Str.strip (default "" query)).
  destruct (Str.truthy q) eqn:Hq; simpl; [|done].
  rewrite call_mistral_run. destruct (ollama up q) as [status text]. simpl.
  destruct (negb _); [done|].
  destruct (json_loads up text) as [parsed|]; [|done].
  destruct (reconcile q _) as [f'|] eqn:Er; [|done].
  apply reconcile_Some_inv in Er as (Hinv & Hc & Hk & Hr & Hs).
  destruct (fakestore up) as [ps|]; [|done].
  intros [= <- <-]. simpl. split_and!.
  - by intros ->.
  - by rewrite <- app_assoc.
  - rewrite Hs. apply sanitize_sort_by_allowed.
  - rewrite Hc. simpl. intros c (c0 & _ & ?)%elem_of_normalize_categories.
    by eapply mapped_valid.
  - done.
  - done.
  - eauto.
  - exists ps. split; [done|]. intros p.
    rewrite ordered_Permutation, list_elem_of_In, filter_In, <- list_elem_of_In.
    split; intros [? ?]; split; auto using passes_satisfies, satisfies_passes.
Qed.

Lemma nlp_search_success_witness :
  let q := Str.strip (default "" (Some " Electronics ")) in
  let run := nlp_search upstream_rating_7 (Some " Electronics ") [] in
  ∃ resp,
  run = (inr resp, run.2)
  ∧ q ≠ ""
  ∧ run.2 = ([] ++ [PostGenerate q; GetProducts])%list
  ∧ sort_by (filters resp) ∈ ALLOWED_SORT
  ∧ (∀ c, c ∈ categories (filters resp) → c ∈ VALID_CATEGORIES)
  ∧ inverted (filters resp) = false
  ∧ count resp = List.length (results resp)
  ∧ (∃ parsed, json_loads upstream_rating_7 (ollama upstream_rating_7 q).2
                 = Some parsed
       ∧ keywords (filters resp) = json_keywords parsed
       ∧ rating_min (filters resp) = json_rating_min parsed)
  ∧ (∃ ps, fakestore upstream_rating_7 = Some ps
       ∧ ∀ p, p ∈ results resp ↔ p ∈ ps ∧ satisfies (filters resp) p).
Proof.
  eexists. split; [vm_compute; reflexivity|].
  exact (nlp_search_success upstream_rating_7 (Some " Electronics ") [] _ _
           eq_refl).
Defined.

(** X15.  On a query that is not blank, a failure upstream ends the
    request where it happens: a completion status other than 200 gives 502
    with the endpoint's text after the one call; an answer that cannot be
    read as the JSON object gives 500 after the one call; in both the
    catalog is never fetched.  A catalog that cannot be fetched gives 500
    after the two calls. *)
Theorem nlp_search_failures (up : Upstream) (query : option string)
  (log : list NetCall) :
  let q := Str.strip (default "" query) in
  q ≠ "" →
  ((ollama up q).1 ≠ 200 →
     nlp_search up query log
     = (inl {| status_code := 502;
               detail := "Ollama error: " +:+ (ollama up q).2 |},
        (log ++ [PostGenerate q])%list))
  ∧ ((ollama up q).1 = 200 → json_loads up (ollama up q).2 = None →
     ∃ msg, nlp_search up query log
            = (inl {| status_code := 500; detail := msg |},
               (log ++ [PostGenerate q])%list))
  ∧ ((ollama up q).1 = 200 → is_Some (json_loads up (ollama up q).2) →
     fakestore up = None →
     ∃ msg, nlp_search up query log
            = (inl {| status_code := 500; detail := msg |},
               (log ++ [PostGenerate q; GetProducts])%list)).
Proof.
  intros q Hq. rewrite nlp_search_run. fold q.
  destruct (Str.truthy q) eqn:Ht; [|by apply truthy_false in Ht]. simpl.
  rewrite call_mistral_run. destruct (ollama up q) as [status text]. simpl.
  split_and!.
  - intros Hs. by rewrite (proj2 (Z.eqb_neq status 200) Hs).
  - intros -> ->. eauto.
  - intros -> [parsed ->] Hf. simpl.
    destruct (reconcile_returns q (filters_of_json parsed)) as [f' ->].
    rewrite Hf, <- app_assoc. eauto.
Qed.

Lemma nlp_search_failures_witness :
  let up := upstream_down in
  let query := Some "cheap ssd" in
  let log := [] in
  let q := Str.strip (default "" query) in
  ((ollama up q).1 ≠ 200 →
     nlp_search up query log
     = (inl {| status_code := 502;
               detail := "Ollama error: " +:+ (ollama up q).2 |},
        (log ++ [PostGenerate q])%list))
  ∧ ((ollama up q).1 = 200 → json_loads up (ollama up q).2 = None →
     ∃ msg, nlp_search up query log
            = (inl {| status_code := 500; detail := msg |},
               (log ++ [PostGenerate q])%list))
  ∧ ((ollama up q).1 = 200 → is_Some (json_loads up (ollama up q).2) →
     fakestore up = None →
     ∃ msg, nlp_search up query log
            = (inl {| status_code := 500; detail := msg |},
               (log ++ [PostGenerate q; GetProducts])%list)).
Proof.
  apply (nlp_search_failures upstream_down (Some "cheap ssd") []).
  discriminate.
Defined.

(** The three failures, run: a completion endpoint that is down, a model
    that answers in prose, a catalog that cannot be fetched. *)
Example failures_run :
  nlp_search upstream_down (Some "cheap ssd") []
  = (inl {| status_code := 502; detail := "Ollama error: model not loaded" |},
     [PostGenerate "cheap ssd"])
  ∧ nlp_search upstream_babbling (Some "cheap ssd") []
    = (inl {| status_code := 500; detail := "Model returned non-JSON." |},
       [PostGenerate "cheap ssd"])
  ∧ nlp_search upstream_no_catalog (Some "cheap ssd") []
    = (inl {| status_code := 500; detail := "Internal Server Error" |},
       [PostGenerate "cheap ssd"; GetProducts]).
Proof. vm_compute. split_and!; reflexivity. Qed.

(** X16.  Whatever the upstreams do, a request makes no call, the
    completion call alone, or the completion call then the catalog fetch,
    and nothing else.  It makes no call exactly when the query is blank; it
    fetches the catalog exactly when the query is not blank and the
    completion answered 200 with a readable object; and it succeeds only
    after fetching a catalog. *)
Theorem nlp_search_calls (up : Upstream) (query : option string)
  (log : list NetCall) :
  let q := Str.strip (default "" query) in
  ∃ r calls,
    nlp_search up query log = (r, (log ++ calls)%list)
    ∧ (calls = [] ∨ calls = [PostGenerate q]
       ∨ calls = [PostGenerate q; GetProducts])
    ∧ (calls = [] ↔ q = "")
    ∧ (GetProducts ∈ calls ↔
       q ≠ "" ∧ (ollama up q).1 = 200
       ∧ is_Some (json_loads up (ollama up q).2))
    ∧ (∀ resp, r = inr resp → GetProducts ∈ calls ∧ is_Some (fakestore up)).
Proof.
  intros q. rewrite nlp_search_run. fold q.
  assert (GetProducts ∉ [PostGenerate q]) as Hnot.
  { by intros [[=]|[]%elem_of_nil]%elem_of_cons. }
  assert (GetProducts ∈ [PostGenerate q; GetProducts]) as Hin.
  { apply elem_of_cons. right. apply elem_of_cons. by left. }
  destruct (Str.truthy q) eqn:Ht; simpl.
  2:{ apply truthy_false in Ht. eexists _, []. rewrite app_nil_r.
      split_and!; [done|by left|done| |done].
      split; [by intros []%elem_of_nil|by intros []]. }
  assert (q ≠ "") as Hq by (by intros E; rewrite E in Ht).
  rewrite call_mistral_run. destruct (ollama up q) as [status text]. simpl.
  destruct (status =? 200)%Z eqn:Es; simpl.
  2:{ apply Z.eqb_neq in Es. eexists _, [_].
      split_and!; [done|by right; left|done| |done].
      split; [done|]. by intros (_ & ? & _). }
  apply Z.eqb_eq in Es as ->.
  destruct (json_loads up text) as [parsed|].
  2:{ eexists _, [_].
      split_and!; [done|by right; left|done| |done].
      split; [done|]. by intros (_ & _ & []%is_Some_None). }
  destruct (reconcile_returns q (filters_of_json parsed)) as [f' ->].
  destruct (fakestore up) as [ps|]; eexists _, [_; _];
    (split_and!; [by rewrite <- app_assoc|by right; right|done| |]).
  - split; [eauto|done].
  - eauto.
  - split; [eauto|done].
  - done.
Qed.

(** ** Extractor: trigger words and digits *)

Section Triggers.
Import Re ReSpec.








Lemma matches_opt_inv r w g g' :
  matches (Opt r) w g g' → w = "" ∨ matches r w g g'.
Proof. inversion 1; subst; eauto. Qed.








End Triggers.



Section TriggerWords.
Import Re ReSpec.






End TriggerWords.


(** ** The brace-searching fallback of [call_mistral] *)

Lemma has_char_append c (a b : string) :
  has_char c (a +:+ b) = has_char c a || has_char c b.
Proof.
  induction a as [|c' a IH]; rewrite ?append_nil_l, ?append_cons; simpl; [done|].
  by rewrite IH, orb_assoc.
Qed.

Lemma upto_last_brace_Some s r :
  upto_last_brace s = Some r →
  ∃ body post, s = body +:+ "}" +:+ post ∧ r = body +:+ "}"
               ∧ has_char "}" post = false.
Proof.
  revert r. induction s as [|c t IH]; intros r; simpl; [done|].
  destruct (upto_last_brace t) as [r'|] eqn:E.
  - intros [= <-]. destruct (IH _ eq_refl) as (body & post & -> & -> & H).
    exists (String c body), post. done.
  - destruct (Ascii.eqb_spec c "}") as [->|_]; [|done]. intros [= <-].
    exists "", t. split_and!; try done.
    clear IH. induction t as [|c' t IH]; simpl in *; [done|].
    destruct (upto_last_brace t); [done|].
    destruct (Ascii.eqb c' "}"); [done|]. simpl. by apply IH.
Qed.

Lemma upto_last_brace_None s :
  upto_last_brace s = None → has_char "}" s = false.
Proof.
  induction s as [|c t IH]; simpl; [done|].
  destruct (upto_last_brace t); [done|].
  destruct (Ascii.eqb c "}"); [done|]. simpl. auto.
Qed.

Lemma brace_span_None text :
  brace_span text = None →
  ∀ a t, text = a +:+ "{" +:+ t → has_char "}" t = false.
Proof.
  induction text as [|c text IH]; simpl; intros H a t E.
  - by destruct a.
  - destruct (Ascii.eqb_spec c "{") as [->|Hc].
    + simpl in H. destruct (upto_last_brace text) as [r|] eqn:Er; [done|].
      apply upto_last_brace_None in Er.
      destruct a as [|c' a]; rewrite ?append_nil_l, ?append_cons in E;
        simplify_eq.
      * done.
      * rewrite !has_char_append in Er. by apply orb_false_elim in Er as [_ ?].
    + destruct a as [|c' a]; rewrite ?append_nil_l, ?append_cons in E;
        simplify_eq. by eapply IH.
Qed.

(** X17.  The fallback search finds the text from the first ["{"] to the
    last ["}"]: when it finds something, the text splits into a part without
    ["{"], the match, which opens with ["{"] and closes with ["}"], and a
    part without ["}"]; it finds nothing exactly when no ["{"] of the text
    has a ["}"] after it. *)
Theorem brace_span_spec (text : string) :
  match brace_span text with
  | Some m =>
      ∃ pre body post,
        text = pre +:+ "{" +:+ body +:+ "}" +:+ post
        ∧ m = "{" +:+ body +:+ "}"
        ∧ has_char "{" pre = false
        ∧ has_char "}" post = false
  | None => ∀ a b c, text ≠ a +:+ "{" +:+ b +:+ "}" +:+ c
  end.
Proof.
  destruct (brace_span text) as [m|] eqn:E.
  - revert m E. induction text as [|c text IH]; intros m; simpl; [done|].
    destruct (Ascii.eqb_spec c "{") as [->|Hc].
    + simpl. destruct (upto_last_brace text) as [r|] eqn:Er; simpl.
      * intros [= <-].
        apply upto_last_brace_Some in Er as (body & post & -> & -> & H).
        exists "", body, post. done.
      * intros (pre & body & post & -> & -> & H1 & H2)%IH.
        apply upto_last_brace_None in Er.
        rewrite !has_char_append in Er. simpl in Er.
        by rewrite !orb_true_r in Er.
    + intros (pre & body & post & -> & -> & H1 & H2)%IH.
      exists (String c pre), body, post. split_and!; try done.
      simpl. rewrite H1. by destruct (Ascii.eqb_spec c "{").
  - intros a b c ->.
    pose proof (brace_span_None _ E a _ eq_refl) as H.
    rewrite !has_char_append in H. simpl in H. by rewrite orb_true_r in H.
Qed.

Example brace_span_examples :
  brace_span "Sure: {a: 1} and {b: 2}. Bye" = Some "{a: 1} and {b: 2}"
  ∧ brace_span "} no object {" = None
  ∧ brace_span "{}" = Some "{}".
Proof. by vm_compute. Qed.
